(** * WebSocketStream ponyfill: a shallow embedding of [src/index.ts]

    The adapter wires the events of one WebSocket (open, message, close,
    error) to two promises ([opened], [closed]) and to a ReadableStream /
    WritableStream pair.  The closures of [index.ts] are embedded one by
    one, each under the line number it has in the source.

    The platform objects the closures call (Promise, EventTarget,
    ReadableStream, WritableStream, AbortSignal) are not part of the
    repository.  They are modelled after the ECMAScript, DOM and WHATWG
    Streams standards, at the granularity of one task: a socket event or a
    call made by the user runs together with the microtasks it queues.  The
    socket itself is the environment: its events are inputs, the calls the
    adapter makes on it ([send], [close]) are recorded. *)

From Stdlib Require Import ZArith String Ascii List Lia.
From stdpp Require Import base option list.
Import ListNotations.

Local Open Scope string_scope.
Local Open Scope list_scope.

(** ** JavaScript values that are thrown or used as rejection reasons *)

Inductive Value :=
| Undefined
| Str (s : string)
| Err (name message : string).

Inductive Result (A : Type) :=
| Ok (a : A)
| Throw (e : Value).
Arguments Ok {A} a.
Arguments Throw {A} e.

(** ** Types of [index.ts] *)

(* index.ts:1 *)
Inductive WebSocketSendType :=
| SendString (s : string)
| SendArrayBufferLike (b : list Z)
| SendBlob (b : list Z)
| SendArrayBufferView (b : list Z).

(* index.ts:2 *)
Inductive WebSocketMessageDataType :=
| DataArrayBuffer (b : list Z)
| DataString (s : string).

Inductive Protocols :=
| OneProtocol (p : string)
| ManyProtocols (ps : list string).

(* The constructor the socket is built with: [globalThis.WebSocket] or the
   one injected through the options. *)
Inductive WebSocketCtor :=
| GlobalWebSocket
| InjectedWebSocket (name : string).

(* The AbortSignal handed to the constructor; its abort event is an input. *)
Inductive AbortSignal := TheSignal.

(* index.ts:4 *)
Record WebSocketStreamOptions := {
  protocols : option Protocols;
  signal : option AbortSignal;
  WebSocket : option WebSocketCtor;
}.

(* index.ts:29 *)
Record WebSocketStreamCloseOptions := {
  opt_closeCode : option Z;
  opt_reason : option string;
}.

(* index.ts:44; the two streams are handles into the stores of the state. *)
Record WebSocketStreamOpened := {
  extensions : string;
  protocol : string;
  readable : nat;
  writable : nat;
}.

(* index.ts:70 *)
Record WebSocketStreamClosed := {
  closeCode : Z;
  reason : string;
}.

(* index.ts:75 *)
Definition ALLOWED_PROTOCOLS : list string := ["ws:"; "wss:"; "http:"; "https:"].

(** ** Promise

    The resolving functions of a promise act once: calling [resolve] or
    [reject] on a settled promise does nothing (ECMAScript, Promise
    Resolve Functions, the [[AlreadyResolved]] flag). *)

Inductive Promise (A : Type) :=
| Pending
| Fulfilled (v : A)
| Rejected (e : Value).
Arguments Pending {A}.
Arguments Fulfilled {A} v.
Arguments Rejected {A} e.

Definition resolve {A} (v : A) (p : Promise A) : Promise A :=
  match p with Pending => Fulfilled v | _ => p end.

Definition reject {A} (e : Value) (p : Promise A) : Promise A :=
  match p with Pending => Rejected e | _ => p end.

Definition settled {A} (p : Promise A) : bool :=
  match p with Pending => false | _ => true end.

(** ** ReadableStream

    A stream with a default controller, the default queuing strategy and
    no pull hook, as [index.ts:94] constructs it; the operations follow
    the abstract operations of the WHATWG Streams standard.  The consumer
    is one reader; [r_results] records what its reads were answered. *)

Inductive ReadableState :=
| RReadable
| RClosed
| RErrored (e : Value).

Inductive ReadResult :=
| ReadValue (d : WebSocketMessageDataType)
| ReadDone
| ReadError (e : Value).

Record ReadableStream := {
  r_state : ReadableState;
  r_queue : list WebSocketMessageDataType;
  r_closeRequested : bool;
  (* read() calls that wait for a chunk *)
  r_readRequests : nat;
  (* what read() calls were answered with, oldest first *)
  r_results : list ReadResult;
}.

Definition new_readable : ReadableStream :=
  {| r_state := RReadable; r_queue := []; r_closeRequested := false;
     r_readRequests := 0; r_results := [] |}.

(* ReadableStreamDefaultControllerCanCloseOrEnqueue *)
Definition canCloseOrEnqueue (rs : ReadableStream) : bool :=
  match r_state rs with
  | RReadable => negb (r_closeRequested rs)
  | _ => false
  end.

(* ReadableStreamClose: pending reads are answered with done. *)
Definition readable_close (rs : ReadableStream) : ReadableStream :=
  {| r_state := RClosed; r_queue := r_queue rs;
     r_closeRequested := r_closeRequested rs;
     r_readRequests := 0;
     r_results := r_results rs ++ repeat ReadDone (r_readRequests rs) |}.

(* controller.enqueue(chunk), ReadableStreamDefaultControllerEnqueue: a
   waiting read takes the chunk, otherwise it joins the queue, whatever
   the queue holds already; [None] is the TypeError thrown when the stream
   can no longer take chunks. *)
Definition rs_enqueue (d : WebSocketMessageDataType) (rs : ReadableStream)
  : option ReadableStream :=
  if canCloseOrEnqueue rs then
    match r_readRequests rs with
    | S n =>
        Some {| r_state := r_state rs; r_queue := r_queue rs;
                r_closeRequested := r_closeRequested rs;
                r_readRequests := n;
                r_results := r_results rs ++ [ReadValue d] |}
    | O =>
        Some {| r_state := r_state rs; r_queue := r_queue rs ++ [d];
                r_closeRequested := r_closeRequested rs;
                r_readRequests := 0;
                r_results := r_results rs |}
    end
  else None.

(* controller.close(), ReadableStreamDefaultControllerClose: the stream
   closes once its queue is empty; [None] is the TypeError thrown when the
   stream is closed, errored or already closing. *)
Definition rs_close (rs : ReadableStream) : option ReadableStream :=
  if canCloseOrEnqueue rs then
    let rs' := {| r_state := r_state rs; r_queue := r_queue rs;
                  r_closeRequested := true;
                  r_readRequests := r_readRequests rs;
                  r_results := r_results rs |} in
    match r_queue rs with
    | [] => Some (readable_close rs')
    | _ :: _ => Some rs'
    end
  else None.

(* reader.read(), ReadableStreamDefaultReaderRead and the pull steps of
   the controller *)
Definition rs_read (rs : ReadableStream) : ReadableStream :=
  match r_state rs with
  | RClosed =>
      {| r_state := RClosed; r_queue := r_queue rs;
         r_closeRequested := r_closeRequested rs;
         r_readRequests := r_readRequests rs;
         r_results := r_results rs ++ [ReadDone] |}
  | RErrored e =>
      {| r_state := RErrored e; r_queue := r_queue rs;
         r_closeRequested := r_closeRequested rs;
         r_readRequests := r_readRequests rs;
         r_results := r_results rs ++ [ReadError e] |}
  | RReadable =>
      match r_queue rs with
      | d :: q =>
          {| r_state := match q with
                        | [] => if r_closeRequested rs then RClosed else RReadable
                        | _ :: _ => RReadable
                        end;
             r_queue := q;
             r_closeRequested := r_closeRequested rs;
             r_readRequests := r_readRequests rs;
             r_results := r_results rs ++ [ReadValue d] |}
      | [] =>
          {| r_state := RReadable; r_queue := [];
             r_closeRequested := r_closeRequested rs;
             r_readRequests := S (r_readRequests rs);
             r_results := r_results rs |}
      end
  end.

(* ReadableStreamCancel up to the call of the cancel hook: the stream is
   closed and its queue reset. *)
Definition rs_cancel (rs : ReadableStream) : ReadableStream :=
  {| r_state := RClosed; r_queue := [];
     r_closeRequested := r_closeRequested rs;
     r_readRequests := 0;
     r_results := r_results rs ++ repeat ReadDone (r_readRequests rs) |}.

(** ** WritableStream

    The stream of [index.ts:103].  Its hooks return at once, so between
    two tasks no write or close is in flight and the stream is writable,
    closed or errored; the intermediate erroring state of the standard is
    passed within a step.  [w_results] records how the promises returned
    to the producer settled. *)

Inductive WritableState :=
| WWritable
| WClosed
| WErrored (e : Value).

Record WritableStream := {
  w_state : WritableState;
  (* how the promises of write(), close() and abort() settled, oldest first *)
  w_results : list (Result unit);
}.

Definition new_writable : WritableStream :=
  {| w_state := WWritable; w_results := [] |}.

Definition w_set_state (st : WritableState) (ws : WritableStream) : WritableStream :=
  {| w_state := st; w_results := w_results ws |}.

Definition w_log (r : Result unit) (ws : WritableStream) : WritableStream :=
  {| w_state := w_state ws; w_results := w_results ws ++ [r] |}.

(* controller.error(e), WritableStreamDefaultController.error: nothing
   happens unless the stream is writable. *)
Definition ws_error (e : Value) (ws : WritableStream) : WritableStream :=
  match w_state ws with
  | WWritable => w_set_state (WErrored e) ws
  | _ => ws
  end.

(** ** The socket as the adapter sees it *)

Inductive SocketCall :=
| CallSend (chunk : WebSocketSendType)
| CallClose (code : option Z) (reason : option string).

(* The closures of [index.ts] that are registered on the socket. *)
Inductive OpenListener := OnOpen.                     (* index.ts:91 *)
Inductive ErrorListener := OnError.                   (* index.ts:110 *)
Inductive MessageListener := Enqueue (r : nat).       (* index.ts:96 *)
Inductive CloseListener :=
| CloseReadable (r : nat)                             (* index.ts:97 *)
| ErrorWritable (w : nat)                             (* index.ts:104 *)
| SettleClosed.                                       (* index.ts:113 *)

Record Socket := {
  binaryType : string;
  ws_protocol : string;
  ws_extensions : string;
  (* listeners per event type, in registration order *)
  on_open : list OpenListener;
  on_error : list ErrorListener;
  on_message : list MessageListener;
  on_close : list CloseListener;
  (* the calls made on the socket, oldest first *)
  calls : list SocketCall;
}.

(** ** The state of one WebSocketStream instance *)

Record State := {
  _ws : Socket;
  (* the one-shot abort listener of index.ts:87, while it is registered *)
  signal_listener : bool;
  opened : Promise WebSocketStreamOpened;
  closed : Promise WebSocketStreamClosed;
  (* every ReadableStream / WritableStream constructed so far *)
  readables : list ReadableStream;
  writables : list WritableStream;
  (* exceptions that left a listener and were reported by the dispatcher *)
  uncaught : list Value;
}.

Definition set_ws (f : Socket -> Socket) (s : State) : State :=
  {| _ws := f (_ws s); signal_listener := signal_listener s;
     opened := opened s; closed := closed s;
     readables := readables s; writables := writables s;
     uncaught := uncaught s |}.

Definition set_signal_listener (b : bool) (s : State) : State :=
  {| _ws := _ws s; signal_listener := b;
     opened := opened s; closed := closed s;
     readables := readables s; writables := writables s;
     uncaught := uncaught s |}.

Definition set_opened (f : Promise WebSocketStreamOpened -> Promise WebSocketStreamOpened)
  (s : State) : State :=
  {| _ws := _ws s; signal_listener := signal_listener s;
     opened := f (opened s); closed := closed s;
     readables := readables s; writables := writables s;
     uncaught := uncaught s |}.

Definition set_closed (f : Promise WebSocketStreamClosed -> Promise WebSocketStreamClosed)
  (s : State) : State :=
  {| _ws := _ws s; signal_listener := signal_listener s;
     opened := opened s; closed := f (closed s);
     readables := readables s; writables := writables s;
     uncaught := uncaught s |}.

Definition set_readables (f : list ReadableStream -> list ReadableStream)
  (s : State) : State :=
  {| _ws := _ws s; signal_listener := signal_listener s;
     opened := opened s; closed := closed s;
     readables := f (readables s); writables := writables s;
     uncaught := uncaught s |}.

Definition set_writables (f : list WritableStream -> list WritableStream)
  (s : State) : State :=
  {| _ws := _ws s; signal_listener := signal_listener s;
     opened := opened s; closed := closed s;
     readables := readables s; writables := f (writables s);
     uncaught := uncaught s |}.

Definition set_uncaught (f : list Value -> list Value) (s : State) : State :=
  {| _ws := _ws s; signal_listener := signal_listener s;
     opened := opened s; closed := closed s;
     readables := readables s; writables := writables s;
     uncaught := f (uncaught s) |}.

Definition sock_negotiated (p e : string) (k : Socket) : Socket :=
  {| binaryType := binaryType k; ws_protocol := p; ws_extensions := e;
     on_open := on_open k; on_error := on_error k;
     on_message := on_message k; on_close := on_close k;
     calls := calls k |}.

Definition sock_on_message (l : MessageListener) (k : Socket) : Socket :=
  {| binaryType := binaryType k; ws_protocol := ws_protocol k;
     ws_extensions := ws_extensions k;
     on_open := on_open k; on_error := on_error k;
     on_message := on_message k ++ [l]; on_close := on_close k;
     calls := calls k |}.

Definition sock_on_close (l : CloseListener) (k : Socket) : Socket :=
  {| binaryType := binaryType k; ws_protocol := ws_protocol k;
     ws_extensions := ws_extensions k;
     on_open := on_open k; on_error := on_error k;
     on_message := on_message k; on_close := on_close k ++ [l];
     calls := calls k |}.

Definition sock_call (c : SocketCall) (k : Socket) : Socket :=
  {| binaryType := binaryType k; ws_protocol := ws_protocol k;
     ws_extensions := ws_extensions k;
     on_open := on_open k; on_error := on_error k;
     on_message := on_message k; on_close := on_close k;
     calls := calls k ++ [c] |}.

(** ** The monad of the closures: state passing with exceptions *)

Definition M (A : Type) : Type := State -> Result A * State.

Definition ret {A} (a : A) : M A := fun s => (Ok a, s).

Definition bind {A B} (m : M A) (k : A -> M B) : M B :=
  fun s =>
    match m s with
    | (Ok a, s') => k a s'
    | (Throw e, s') => (Throw e, s')
    end.

Definition throw {A} (e : Value) : M A := fun s => (Throw e, s).

(* try { m } catch { h } *)
Definition try_catch {A} (m : M A) (h : Value -> M A) : M A :=
  fun s =>
    match m s with
    | (Ok a, s') => (Ok a, s')
    | (Throw e, s') => h e s'
    end.

Definition gets {A} (f : State -> A) : M A := fun s => (Ok (f s), s).

Definition modify (f : State -> State) : M unit := fun s => (Ok tt, f s).

Declare Scope js_scope.
Delimit Scope js_scope with js.
Notation "x <- m ; k" := (bind m (fun x => k))
  (at level 20, m at level 100, k at level 200, only parsing) : js_scope.
Notation "m ;; k" := (bind m (fun _ => k))
  (at level 100, k at level 200, only parsing, right associativity) : js_scope.
Local Open Scope js_scope.

(** ** Calls on the socket *)

(* this._ws.addEventListener('message', l) *)
Definition addEventListener_message (l : MessageListener) : M unit :=
  modify (set_ws (sock_on_message l)).

(* this._ws.addEventListener('close', l) *)
Definition addEventListener_close (l : CloseListener) : M unit :=
  modify (set_ws (sock_on_close l)).

(* this._ws.send(chunk); [thrown] is what the socket throws, if it does. *)
Definition ws_send (chunk : WebSocketSendType) (thrown : option Value) : M unit :=
  modify (set_ws (sock_call (CallSend chunk)));;
  match thrown with
  | None => ret tt
  | Some e => throw e
  end.

(* this._ws.close(code, reason); [None] is [undefined].  The call is
   recorded as it is made; [thrown] is what the socket throws, if it does:
   a socket refuses a code or a reason it does not accept. *)
Definition ws_close (code : option Z) (reason : option string) (thrown : option Value)
  : M unit :=
  modify (set_ws (sock_call (CallClose code reason)));;
  match thrown with
  | None => ret tt
  | Some e => throw e
  end.

(** ** Controllers of the streams in the store *)

Definition TypeError_enqueue : Value :=
  Err "TypeError" "The stream is not in a state that permits enqueue".
Definition TypeError_close : Value :=
  Err "TypeError" "The stream is not in a state that permits close".
Definition TypeError_closed_writable : Value :=
  Err "TypeError" "The stream is closing or closed".

(* controller.enqueue(data) of readable [r] *)
Definition controller_enqueue (r : nat) (data : WebSocketMessageDataType) : M unit :=
  fun s =>
    match readables s !! r with
    | Some rs =>
        match rs_enqueue data rs with
        | Some rs' => (Ok tt, set_readables (<[r := rs']>) s)
        | None => (Throw TypeError_enqueue, s)
        end
    | None => (Ok tt, s)
    end.

(* controller.close() of readable [r] *)
Definition controller_close (r : nat) : M unit :=
  fun s =>
    match readables s !! r with
    | Some rs =>
        match rs_close rs with
        | Some rs' => (Ok tt, set_readables (<[r := rs']>) s)
        | None => (Throw TypeError_close, s)
        end
    | None => (Ok tt, s)
    end.

(* controller.error(e) of writable [w] *)
Definition controller_error (w : nat) (e : Value) : M unit :=
  modify (set_writables (alter (ws_error e) w)).

(** ** The closures of [index.ts] *)

(* index.ts:145 *)
Definition close (options : WebSocketStreamCloseOptions) (thrown : option Value)
  : M unit :=
  ws_close (opt_closeCode options) (opt_reason options) thrown.

(* close() without argument: the default [{}] of index.ts:145 *)
Definition no_options : WebSocketStreamCloseOptions :=
  {| opt_closeCode := None; opt_reason := None |}.

(* index.ts:95, the start hook of the readable *)
Definition readable_start (r : nat) : M unit :=
  addEventListener_message (Enqueue r);;
  addEventListener_close (CloseReadable r).

(* index.ts:101, the cancel hook of the readable; a close without code
   and reason has nothing for the socket to refuse *)
Definition readable_cancel : M unit := ws_close None None None.

(* index.ts:104, the start hook of the writable *)
Definition writable_start (w : nat) : M unit :=
  addEventListener_close (ErrorWritable w).

(* index.ts:105, the write hook *)
Definition writable_write (chunk : WebSocketSendType) (thrown : option Value) : M unit :=
  ws_send chunk thrown.

(* index.ts:106, the close hook *)
Definition writable_close : M unit := ws_close None None None.

(* index.ts:107, the abort hook *)
Definition writable_abort (reason : string) (thrown : option Value) : M unit :=
  ws_close None (Some reason) thrown.

(* new ReadableStream({ start, cancel }): the start hook runs inside the
   constructor. *)
Definition new_ReadableStream : M nat :=
  r <- gets (fun s => length (readables s));
  modify (set_readables (fun l => l ++ [new_readable]));;
  readable_start r;;
  ret r.

(* new WritableStream({ start, write, close, abort }) *)
Definition new_WritableStream : M nat :=
  w <- gets (fun s => length (writables s));
  modify (set_writables (fun l => l ++ [new_writable]));;
  writable_start w;;
  ret w.

(* index.ts:91-109 *)
Definition call_open (l : OpenListener) : M unit :=
  match l with
  | OnOpen =>
      e <- gets (fun s => ws_extensions (_ws s));
      p <- gets (fun s => ws_protocol (_ws s));
      r <- new_ReadableStream;
      w <- new_WritableStream;
      modify (set_opened (resolve
        {| extensions := e; protocol := p; readable := r; writable := w |}))
  end.

(* index.ts:110 *)
Definition call_error (l : ErrorListener) : M unit :=
  match l with
  | OnError => modify (set_opened (reject (Err "Error" "WebSocket error")))
  end.

(* index.ts:96 *)
Definition call_message (data : WebSocketMessageDataType) (l : MessageListener) : M unit :=
  match l with
  | Enqueue r => controller_enqueue r data
  end.

(* index.ts:97-99, index.ts:104, index.ts:113-118 *)
Definition call_close (code : Z) (reason : string) (l : CloseListener) : M unit :=
  match l with
  | CloseReadable r => try_catch (controller_close r) (fun _ => ret tt)
  | ErrorWritable w => controller_error w Undefined
  | SettleClosed =>
      modify (set_closed (resolve {| closeCode := code; reason := reason |}))
  end.

(** ** Event dispatch

    The listeners of the event's type run in registration order, over the
    list as it is when the dispatch starts.  An exception that leaves a
    listener is reported and the dispatch goes on. *)

Definition report (m : M unit) (s : State) : State :=
  match m s with
  | (Ok _, s') => s'
  | (Throw e, s') => set_uncaught (fun u => u ++ [e]) s'
  end.

Fixpoint dispatch {L} (call : L -> M unit) (ls : list L) (s : State) : State :=
  match ls with
  | [] => s
  | l :: ls' => dispatch call ls' (report (call l) s)
  end.

(** ** The operations of the stream consumer and producer *)

(* reader.read() on readable [r] *)
Definition reader_read (r : nat) (s : State) : State :=
  set_readables (alter rs_read r) s.

(* reader.cancel() on readable [r]: the stream is closed, then the cancel
   hook runs. *)
Definition reader_cancel (r : nat) : M unit :=
  fun s =>
    match readables s !! r with
    | Some rs =>
        match r_state rs with
        | RReadable =>
            (modify (set_readables (<[r := rs_cancel rs]>));;
             readable_cancel) s
        | RClosed => (Ok tt, s)
        | RErrored e => (Throw e, s)
        end
    | None => (Ok tt, s)
    end.

(* writer.write(chunk) on writable [w]: the write hook runs while the
   stream is writable; a hook that throws errors the stream. *)
Definition writer_write (w : nat) (chunk : WebSocketSendType) (thrown : option Value)
  : M unit :=
  fun s =>
    match writables s !! w with
    | Some ws =>
        match w_state ws with
        | WWritable =>
            match writable_write chunk thrown s with
            | (Ok a, s') => (Ok a, s')
            | (Throw e, s') =>
                (Throw e, set_writables (alter (w_set_state (WErrored e)) w) s')
            end
        | WClosed => (Throw TypeError_closed_writable, s)
        | WErrored e => (Throw e, s)
        end
    | None => (Ok tt, s)
    end.

(* writer.close() on writable [w] *)
Definition writer_close (w : nat) : M unit :=
  fun s =>
    match writables s !! w with
    | Some ws =>
        match w_state ws with
        | WWritable =>
            (writable_close;;
             modify (set_writables (alter (w_set_state WClosed) w))) s
        | WClosed => (Throw TypeError_closed_writable, s)
        | WErrored e => (Throw TypeError_closed_writable, s)
        end
    | None => (Ok tt, s)
    end.

(* writer.abort(reason) on writable [w]: the stream is errored with the
   reason, then the abort hook runs; what the hook throws rejects the
   promise of the abort. *)
Definition writer_abort (w : nat) (reason : string) (thrown : option Value) : M unit :=
  fun s =>
    match writables s !! w with
    | Some ws =>
        match w_state ws with
        | WWritable =>
            (modify (set_writables (alter (w_set_state (WErrored (Str reason))) w));;
             writable_abort reason thrown) s
        | _ => (Ok tt, s)
        end
    | None => (Ok tt, s)
    end.

(* The promise a writer operation returns settles with the outcome. *)
Definition writer_op (w : nat) (m : M unit) (s : State) : State :=
  match m s with
  | (res, s') => set_writables (alter (w_log res) w) s'
  end.

(** ** Inputs: socket events, the abort signal, calls of the user *)

Inductive Input :=
(* the socket fires open, showing the negotiated protocol and extensions *)
| SocketOpen (protocol extensions : string)
| SocketMessage (data : WebSocketMessageDataType)
| SocketClose (code : Z) (reason : string)
| SocketError
(* the abort event of the signal given in the options *)
| SignalAbort
(* ws.close(options); [thrown] is what the socket's close throws, if it does *)
| Close (options : WebSocketStreamCloseOptions) (thrown : option Value)
(* operations on the streams of the opened result *)
| Read
| Cancel
| Write (chunk : WebSocketSendType) (thrown : option Value)
| WriterClose
| Abort (reason : string) (thrown : option Value).

(* The streams are reachable only through the value of [opened]. *)
Definition with_streams (k : WebSocketStreamOpened -> State -> State) (s : State) : State :=
  match opened s with
  | Fulfilled o => k o s
  | _ => s
  end.

(* One input is one task: the event or the call runs with the microtasks
   it queues, and the next input finds no write or close in flight.  The
   order in which the calls of one synchronous block of user code reach
   the socket (a queued write against a close made right after it) is
   below this granularity. *)
Definition step (i : Input) (s : State) : State :=
  match i with
  | SocketOpen p e =>
      let s1 := set_ws (sock_negotiated p e) s in
      dispatch call_open (on_open (_ws s1)) s1
  | SocketMessage data => dispatch (call_message data) (on_message (_ws s)) s
  | SocketClose code reason => dispatch (call_close code reason) (on_close (_ws s)) s
  | SocketError => dispatch call_error (on_error (_ws s)) s
  | SignalAbort =>
      (* index.ts:87, registered with once: true *)
      if signal_listener s
      then report (close no_options None) (set_signal_listener false s)
      else s
  | Close options thrown =>
      (* what close() throws goes to its caller *)
      snd (close options thrown s)
  | Read => with_streams (fun o => reader_read (readable o)) s
  | Cancel => with_streams (fun o s => snd (reader_cancel (readable o) s)) s
  | Write chunk thrown =>
      with_streams (fun o => writer_op (writable o) (writer_write (writable o) chunk thrown)) s
  | WriterClose =>
      with_streams (fun o => writer_op (writable o) (writer_close (writable o))) s
  | Abort reason thrown =>
      with_streams
        (fun o => writer_op (writable o) (writer_abort (writable o) reason thrown)) s
  end.

Definition run (ins : list Input) (s : State) : State :=
  fold_left (fun s i => step i s) ins s.

(** ** The constructor, index.ts:83-120 *)

Inductive CtorEffect :=
| SignalAddEventListener
| NewWebSocket (ctor : WebSocketCtor) (url : string) (protocols : option Protocols).

Definition dquote : string := String (ascii_of_nat 34) EmptyString.

(* index.ts:85 *)
Definition invalid_protocol_message : string :=
  ("Failed to create WebSocketStream. Cause: Invalid URL protocol. Possible values are: "
   ++ String.concat ", " (map (fun protocol => dquote ++ protocol ++ dquote) ALLOWED_PROTOCOLS)
   ++ ".")%string.

(* Array.prototype.includes on strings *)
Definition includes (x : string) (l : list string) : bool :=
  existsb (String.eqb x) l.

(* index.ts:87-88: what the constructor does to its surroundings once the
   protocol is accepted *)
Definition construct_effects (url : string) (options : WebSocketStreamOptions)
  : list CtorEffect :=
  (* index.ts:87 *)
  match signal options with Some _ => [SignalAddEventListener] | None => [] end
  (* index.ts:88 *)
  ++ [NewWebSocket (default GlobalWebSocket (WebSocket options)) url (protocols options)].

(* index.ts:87-119: the instance the constructor leaves *)
Definition init (options : WebSocketStreamOptions) : State :=
  {| _ws :=
       {| (* index.ts:89 *)
          binaryType := "arraybuffer";
          ws_protocol := ""; ws_extensions := "";
          (* index.ts:91 *)
          on_open := [OnOpen];
          (* index.ts:110 *)
          on_error := [OnError];
          on_message := [];
          (* index.ts:113 *)
          on_close := [SettleClosed];
          calls := [] |};
     (* index.ts:87 *)
     signal_listener := match signal options with Some _ => true | None => false end;
     opened := Pending;
     closed := Pending;
     readables := [];
     writables := [];
     uncaught := [] |}.

Section Constructor.

(* [new URL(url).protocol]: the platform's URL parser, which throws a
   TypeError on a string that is not a URL. *)
Variable URL_protocol : string -> Result string.

(* [new WebSocket(url, protocols)]: what the constructor of the socket
   throws, if it does; a socket refuses, for instance, a URL with a
   fragment or a sub-protocol named twice. *)
Variable new_WebSocket : WebSocketCtor -> string -> option Protocols -> option Value.

(* index.ts:83 *)
Definition WebSocketStream_new (url : string) (options : WebSocketStreamOptions)
  : list CtorEffect * Result State :=
  match URL_protocol url with
  | Throw e => ([], Throw e)
  | Ok p =>
      if negb (includes p ALLOWED_PROTOCOLS)
      then ([], Throw (Err "SyntaxError" invalid_protocol_message))
      else
        (* index.ts:87-88; the signal has its listener when the socket
           constructor throws *)
        match new_WebSocket (default GlobalWebSocket (WebSocket options)) url
                (protocols options) with
        | Some e => (construct_effects url options, Throw e)
        | None => (construct_effects url options, Ok (init options))
        end
  end.

End Constructor.

(** * MockWebSocket, the socket of the test suite

    The tests inject this class as the WebSocket of the adapter.  Its
    [url], [protocol], [extensions], [binaryType] and [listeners] are the
    fields of [Socket] above; [protocol] and [extensions] stay empty.  The
    mock hands every callback to [setTimeout] with the same delay, so the
    pending callbacks run in the order in which they were set: [timers]
    is that queue. *)

Inductive MockTimer :=
| EmitOpen                                  (* set by the constructor *)
| EmitClose (code : Z) (reason : string).   (* set by close() *)

Record MockWebSocket := {
  readyState : Z;
  sent : list WebSocketSendType;
  timers : list MockTimer;
}.

(* new MockWebSocket(url, protocols) *)
Definition MockWebSocket_new : MockWebSocket :=
  {| readyState := 0; sent := []; timers := [EmitOpen] |}.

(* send(data) *)
Definition mock_send (data : WebSocketSendType) (m : MockWebSocket) : MockWebSocket :=
  {| readyState := readyState m; sent := sent m ++ [data]; timers := timers m |}.

(* close(code, reason): [code ?? 1000], [reason ?? ''] *)
Definition mock_close (code : option Z) (reason : option string) (m : MockWebSocket)
  : MockWebSocket :=
  if (readyState m =? 3)%Z then m
  else {| readyState := 3; sent := sent m;
          timers := timers m ++ [EmitClose (default 1000%Z code) (default "" reason)] |}.

(* #emit(event, arg): the listeners run in registration order; an
   exception of a listener leaves forEach, so the listeners after it do
   not run. *)
Fixpoint emit {L} (call : L -> M unit) (ls : list L) : M unit :=
  match ls with
  | [] => ret tt
  | l :: ls' => call l;; emit call ls'
  end.

(* The adapter together with the mock it was constructed with. *)
Record Harness := {
  stream : State;
  socket : MockWebSocket;
}.

(* The mock takes a call of the adapter. *)
Definition mock_call (m : MockWebSocket) (c : SocketCall) : MockWebSocket :=
  match c with
  | CallSend data => mock_send data m
  | CallClose code reason => mock_close code reason m
  end.

(* [f] runs on the adapter; the mock takes the calls made meanwhile, those
   after the calls [old] made before. *)
Definition drive (f : State -> State) (h : Harness) : Harness :=
  let old := calls (_ws (stream h)) in
  let s' := f (stream h) in
  {| stream := s';
     socket := fold_left mock_call (drop (length old) (calls (_ws s'))) (socket h) |}.

(* What the user of the adapter can do; the mock's [send] and [close]
   never throw. *)
Inductive UserCall :=
| USignalAbort
| UClose (options : WebSocketStreamCloseOptions)
| URead
| UCancel
| UWrite (chunk : WebSocketSendType)
| UWriterClose
| UAbort (reason : string).

Definition input_of (u : UserCall) : Input :=
  match u with
  | USignalAbort => SignalAbort
  | UClose options => Close options None
  | URead => Read
  | UCancel => Cancel
  | UWrite chunk => Write chunk None
  | UWriterClose => WriterClose
  | UAbort reason => Abort reason None
  end.

Inductive TestInput :=
(* the oldest pending timer of the mock runs *)
| Timeout
(* MockWebSocket.mockMessage(data) *)
| MockMessage (data : WebSocketMessageDataType)
(* MockWebSocket.mockClose(code, reason) *)
| MockClose (code : option Z) (reason : option string)
| User (u : UserCall).

(* The callback of a timer; an exception that leaves it is reported. *)
Definition fire (t : MockTimer) (s : State) : State :=
  match t with
  | EmitOpen => report (emit call_open (on_open (_ws s))) s
  | EmitClose code reason => report (emit (call_close code reason) (on_close (_ws s))) s
  end.

Definition pop_timer (m : MockWebSocket) : MockWebSocket :=
  {| readyState := readyState m; sent := sent m; timers := tail (timers m) |}.

Definition test_step (i : TestInput) (h : Harness) : Harness :=
  match i with
  | Timeout =>
      match timers (socket h) with
      | [] => h
      | t :: _ => drive (fire t) {| stream := stream h; socket := pop_timer (socket h) |}
      end
  | MockMessage data =>
      drive (fun s => report (emit (call_message data) (on_message (_ws s))) s) h
  | MockClose code reason =>
      drive (fun s => report (emit (call_close (default 1000%Z code) (default "" reason))
                                (on_close (_ws s))) s) h
  | User u => drive (step (input_of u)) h
  end.

Definition test_run (ins : list TestInput) (h : Harness) : Harness :=
  fold_left (fun h i => test_step i h) ins h.

(* new WebSocketStream(url, { ..., WebSocket: MockWebSocket }) *)
Definition harness_init (options : WebSocketStreamOptions) : Harness :=
  {| stream := init options; socket := MockWebSocket_new |}.

(* The close requests among the calls made on the socket. *)
Definition close_requests (cs : list SocketCall) : list (option Z * option string) :=
  omap (fun c => match c with
                 | CallClose code reason => Some (code, reason)
                 | _ => None
                 end) cs.

(* The close events among the pending timers. *)
Definition close_timers (ts : list MockTimer) : list (Z * string) :=
  omap (fun t => match t with
                 | EmitClose code reason => Some (code, reason)
                 | EmitOpen => None
                 end) ts.

(* The close event with which the mock answers a close request. *)
Definition mock_answer (req : option Z * option string) : Z * string :=
  (default 1000%Z (fst req), default "" (snd req)).

Definition is_mock_close (i : TestInput) : bool :=
  match i with MockClose _ _ => true | _ => false end.

Definition is_timeout (i : TestInput) : bool :=
  match i with Timeout => true | _ => false end.

(** * Vocabulary of the properties *)

Definition is_close (i : Input) : bool :=
  match i with SocketClose _ _ => true | _ => false end.

Definition is_open (i : Input) : bool :=
  match i with SocketOpen _ _ => true | _ => false end.

Definition is_open_or_error (i : Input) : bool :=
  match i with SocketOpen _ _ | SocketError => true | _ => false end.

(* What [opened] is after the inputs [ins]: decided by the first open or
   error event among them. *)
Definition opened_after (ins : list Input) : Promise WebSocketStreamOpened :=
  match find is_open_or_error ins with
  | Some (SocketOpen p e) =>
      Fulfilled {| extensions := e; protocol := p; readable := 0; writable := 0 |}
  | Some _ => Rejected (Err "Error" "WebSocket error")
  | None => Pending
  end.

(* What [closed] is after the inputs [ins]: decided by the first close
   event among them. *)
Definition closed_after (ins : list Input) : Promise WebSocketStreamClosed :=
  match find is_close ins with
  | Some (SocketClose code reason) =>
      Fulfilled {| closeCode := code; reason := reason |}
  | _ => Pending
  end.

(* The listeners a stream pair registers, index.ts:96, 97 and 104. *)
Definition pair_close_listeners (k : nat) : list CloseListener :=
  [CloseReadable k; ErrorWritable k].

(* A readable stream of this adapter is never errored; while it is
   readable with a close requested its queue still holds chunks, and once
   it is closed its queue is empty. *)
Definition inbound_ok (rs : ReadableStream) : Prop :=
  match r_state rs with
  | RReadable => r_closeRequested rs = true -> r_queue rs <> []
  | RClosed => r_queue rs = []
  | RErrored _ => False
  end.

(* The invariant of the states an instance goes through. *)
Record wired (s : State) : Prop := {
  wired_open : on_open (_ws s) = [OnOpen];
  wired_error : on_error (_ws s) = [OnError];
  wired_message :
    on_message (_ws s) = map Enqueue (seq 0 (length (readables s)));
  wired_close :
    on_close (_ws s)
    = SettleClosed :: flat_map pair_close_listeners (seq 0 (length (readables s)));
  wired_pairs : length (writables s) = length (readables s);
  wired_pending : opened s = Pending -> readables s = [];
  wired_handles :
    forall o, opened s = Fulfilled o ->
      readable o = 0 /\ writable o = 0 /\ 0 < length (readables s);
  wired_inbound : Forall inbound_ok (readables s);
}.

(* Steps that register no listener, construct no stream and leave [opened]. *)
Record same_wiring (s s' : State) : Prop := {
  same_open : on_open (_ws s') = on_open (_ws s);
  same_error : on_error (_ws s') = on_error (_ws s);
  same_message : on_message (_ws s') = on_message (_ws s);
  same_close : on_close (_ws s') = on_close (_ws s);
  same_readables : length (readables s') = length (readables s);
  same_writables : length (writables s') = length (writables s);
  same_opened : opened s' = opened s;
}.

(* What a listener does to the stream it holds: the controller call, or
   nothing where the call throws. *)
Definition try_enqueue (d : WebSocketMessageDataType) (rs : ReadableStream) : ReadableStream :=
  default rs (rs_enqueue d rs).

Definition try_close (rs : ReadableStream) : ReadableStream :=
  default rs (rs_close rs).

Definition enqueue_target (l : MessageListener) : option nat :=
  match l with Enqueue r => Some r end.

Definition close_target (l : CloseListener) : option nat :=
  match l with CloseReadable r => Some r | _ => None end.

Definition error_target (l : CloseListener) : option nat :=
  match l with ErrorWritable w => Some w | _ => None end.

(* The payloads of the message events of a run, and its number of reads. *)
Definition messages (ins : list Input) : list WebSocketMessageDataType :=
  omap (fun i => match i with SocketMessage d => Some d | _ => None end) ins.

Definition is_read (i : Input) : bool :=
  match i with Read => true | _ => false end.

Definition reads (ins : list Input) : nat := length (List.filter is_read ins).

(* Inputs after which the inbound stream still takes chunks: everything
   but a close event and a cancel of the consumer. *)
Definition keeps_inbound_open (i : Input) : bool :=
  match i with SocketClose _ _ | Cancel => false | _ => true end.

(* The inbound stream [rs] has taken the messages [ms] and answered [nr]
   reads: the reads got the first messages in order, the rest waits in
   the queue, and the reads in excess of the messages wait for chunks. *)
Definition tracks (rs : ReadableStream) (ms : list WebSocketMessageDataType) (nr : nat)
  : Prop :=
  r_state rs = RReadable
  /\ r_closeRequested rs = false
  /\ r_results rs = map ReadValue (take nr ms)
  /\ r_queue rs = drop nr ms
  /\ r_readRequests rs = nr - length ms.

(* A stand-in for the URL parser in the examples: the scheme is what
   precedes the first colon, colon included; a string without a colon is
   not a URL. *)
Fixpoint scheme_of (url : string) : option string :=
  match url with
  | EmptyString => None
  | String c rest =>
      if Ascii.eqb c ":" then Some ":"
      else option_map (String c) (scheme_of rest)
  end.

Definition example_URL_protocol (url : string) : Result string :=
  match scheme_of url with
  | Some p => Ok p
  | None => Throw (Err "TypeError" "Invalid URL")
  end.

Definition is_signal (i : Input) : bool :=
  match i with SignalAbort => true | _ => false end.

(* An inbound stream on its way to completion: it takes no more chunks,
   and a read gets what is left in the queue or done. *)
Definition draining (rs : ReadableStream) : Prop :=
  inbound_ok rs /\ canCloseOrEnqueue rs = false.

(* The calls of the producer that end the outbound stream. *)
Definition own_completion (i : Input) : Prop :=
  i = WriterClose \/ exists reason thrown, i = Abort reason thrown.

(** ** Vocabulary of the further properties *)

Definition is_socket_event (i : Input) : bool :=
  match i with
  | SocketOpen _ _ | SocketMessage _ | SocketClose _ _ | SocketError => true
  | _ => false
  end.

(* The operations of the producer on the outbound stream. *)
Definition is_producer_op (i : Input) : bool :=
  match i with
  | Write _ _ | WriterClose | Abort _ _ => true
  | _ => false
  end.

(* The chunks the socket was asked to send, oldest first. *)
Definition sends (cs : list SocketCall) : list WebSocketSendType :=
  omap (fun c => match c with CallSend chunk => Some chunk | _ => None end) cs.

(* The call on the socket that an input can cause: a write its [send], a
   close of any kind its [close]; an event of the socket none. *)
Definition request_of (i : Input) : option SocketCall :=
  match i with
  | Write chunk _ => Some (CallSend chunk)
  | Close options _ => Some (CallClose (opt_closeCode options) (opt_reason options))
  | SignalAbort | Cancel | WriterClose => Some (CallClose None None)
  | Abort reason _ => Some (CallClose None (Some reason))
  | SocketOpen _ _ | SocketMessage _ | SocketClose _ _ | SocketError | Read => None
  end.

Definition requests (ins : list Input) : list SocketCall := omap request_of ins.

(* The chunks the producer wrote, oldest first. *)
Definition written (ins : list Input) : list WebSocketSendType :=
  omap (fun i => match i with Write chunk _ => Some chunk | _ => None end) ins.

(* An inbound stream that is not errored and has answered no read with an
   error. *)
Definition never_errored (rs : ReadableStream) : Prop :=
  (forall e, r_state rs <> RErrored e)
  /\ Forall (fun res => forall e, res <> ReadError e) (r_results rs).

(* How the promise of a producer operation settles on an outbound stream
   that is no longer writable. *)
Definition dead_result (st : WritableState) (i : Input) : Result unit :=
  match i, st with
  | Write _ _, WErrored e => Throw e
  | Abort _ _, _ => Ok tt
  | _, _ => Throw TypeError_closed_writable
  end.

(* The invariant of the harness: the mock has recorded what it was asked
   to send; before a close request it is not closed, no close event is
   pending and [closed] is pending; after one, the answer to the first
   request is either still pending, alone, or it has settled [closed]. *)
Record harness_ok (h : Harness) : Prop := {
  ok_wired : wired (stream h);
  ok_fields : ws_protocol (_ws (stream h)) = "" /\ ws_extensions (_ws (stream h)) = "";
  ok_sent : sent (socket h) = sends (calls (_ws (stream h)));
  ok_close :
    match close_requests (calls (_ws (stream h))) with
    | [] =>
        readyState (socket h) <> 3%Z
        /\ close_timers (timers (socket h)) = []
        /\ closed (stream h) = Pending
    | req :: _ =>
        readyState (socket h) = 3%Z
        /\ ((close_timers (timers (socket h)) = [mock_answer req]
             /\ closed (stream h) = Pending)
            \/ (close_timers (timers (socket h)) = []
                /\ closed (stream h)
                   = Fulfilled {| closeCode := fst (mock_answer req);
                                  reason := snd (mock_answer req) |}))
    end;
}.

(** * Properties *)

Arguments rs_enqueue : simpl never.
Arguments rs_close : simpl never.
Arguments rs_read : simpl never.
Arguments rs_cancel : simpl never.
Arguments ws_error : simpl never.
Arguments w_set_state : simpl never.
Arguments w_log : simpl never.
Arguments resolve : simpl never.
Arguments reject : simpl never.
Arguments report : simpl never.

(** Symbolic execution of the closures: unfold the monad and the hooks,
    then split on what the stores hold. *)
Ltac unfold_js :=
  repeat progress
    unfold report, step, with_streams,
      writer_op, writer_write, writer_close, writer_abort,
      reader_read, reader_cancel,
      call_open, call_error, call_message, call_close,
      new_ReadableStream, new_WritableStream, readable_start, writable_start,
      controller_enqueue, controller_close, controller_error,
      close, readable_cancel, writable_write, writable_close, writable_abort,
      addEventListener_message, addEventListener_close, ws_send, ws_close,
      try_catch, bind, ret, throw, gets, modify in *.

Ltac js := unfold_js; simpl in *; repeat (case_match; simpl in *; simplify_eq); try done.

(** ** Dispatch *)

Lemma dispatch_preserves {L} (P : State -> Prop) (call : L -> M unit) (ls : list L) :
  (forall l s, P s -> P (report (call l) s)) ->
  forall s, P s -> P (dispatch call ls s).
Proof.
  intros Hcall. induction ls as [|l ls IH]; intros s Hs; simpl; [done|].
  apply IH, Hcall, Hs.
Qed.

Lemma run_app ins1 ins2 s : run (ins1 ++ ins2) s = run ins2 (run ins1 s).
Proof. unfold run. apply fold_left_app. Qed.

Lemma run_cons i ins s : run (i :: ins) s = run ins (step i s).
Proof. reflexivity. Qed.

(** ** The promises *)

Lemma resolve_idemp {A} (v : A) p : resolve v (resolve v p) = resolve v p.
Proof. by destruct p. Qed.

(** What a step leaves alone: the listeners of open and error, the head
    of the close listeners, and (but for a close event) [closed]. *)

Lemma report_close_closed code reason l s :
  closed (report (call_close code reason l) s)
  = match l with
    | SettleClosed => resolve {| closeCode := code; reason := reason |} (closed s)
    | _ => closed s
    end.
Proof. destruct l; js. Qed.

Lemma dispatch_close_closed code reason ls s :
  closed (dispatch (call_close code reason) (SettleClosed :: ls) s)
  = resolve {| closeCode := code; reason := reason |} (closed s).
Proof.
  simpl.
  apply (dispatch_preserves (fun s' => closed s' = _)); [|reflexivity].
  intros l s' Hs'. rewrite report_close_closed, Hs'.
  destruct l; auto using resolve_idemp.
Qed.

Lemma step_closed_other i s : is_close i = false -> closed (step i s) = closed s.
Proof.
  destruct i; try done; intros _; simpl;
    try (apply (dispatch_preserves (fun s' => closed s' = _)); [intros [] s' <-|done]);
    js.
Qed.

(** ** The wiring invariant *)

Lemma same_wiring_refl s : same_wiring s s.
Proof. by split. Qed.

Lemma same_wiring_trans s1 s2 s3 :
  same_wiring s1 s2 -> same_wiring s2 s3 -> same_wiring s1 s3.
Proof. intros [] []. split; congruence. Qed.

Ltac same_wiring :=
  split; simpl; rewrite ?length_insert, ?length_alter; done.

Lemma same_wiring_message d l s : same_wiring s (report (call_message d l) s).
Proof. destruct l. js; same_wiring. Qed.

Lemma same_wiring_close code reason l s :
  same_wiring s (report (call_close code reason l) s).
Proof. destruct l; js; same_wiring. Qed.

Lemma same_wiring_dispatch {L} (call : L -> M unit) ls s :
  (forall l s', same_wiring s' (report (call l) s')) ->
  same_wiring s (dispatch call ls s).
Proof.
  intros Hcall. apply (dispatch_preserves (same_wiring s)); [|apply same_wiring_refl].
  intros l s' Hs'. eapply same_wiring_trans; [exact Hs'|apply Hcall].
Qed.

Lemma same_wiring_step i s :
  is_open_or_error i = false -> same_wiring s (step i s).
Proof.
  destruct i; try discriminate; intros _;
    first [ by apply same_wiring_dispatch, same_wiring_message
          | by apply same_wiring_dispatch, same_wiring_close
          | js; same_wiring ].
Qed.

Lemma inbound_ok_new : inbound_ok new_readable.
Proof. by unfold inbound_ok. Qed.

Lemma inbound_ok_enqueue d rs rs' :
  rs_enqueue d rs = Some rs' -> inbound_ok rs -> inbound_ok rs'.
Proof.
  unfold rs_enqueue, canCloseOrEnqueue, inbound_ok.
  destruct rs as [[] q [] n res]; simpl; try done.
  destruct n; intros [= <-]; simpl; done.
Qed.

Lemma inbound_ok_close rs rs' :
  rs_close rs = Some rs' -> inbound_ok rs -> inbound_ok rs'.
Proof.
  unfold rs_close, canCloseOrEnqueue, inbound_ok.
  destruct rs as [[] q [] n res]; simpl; try done.
  destruct q; intros [= <-]; simpl; done.
Qed.

Lemma inbound_ok_read rs : inbound_ok rs -> inbound_ok (rs_read rs).
Proof.
  unfold rs_read, inbound_ok.
  destruct rs as [[] [|d [|d' q]] [] n res]; simpl; done.
Qed.

Lemma inbound_ok_cancel rs : inbound_ok (rs_cancel rs).
Proof. done. Qed.

Lemma inbound_message d l s :
  Forall inbound_ok (readables s) ->
  Forall inbound_ok (readables (report (call_message d l) s)).
Proof.
  destruct l as [r]. intros Hs. js.
  apply Forall_insert; [done|].
  eapply inbound_ok_enqueue; [eassumption|].
  eapply Forall_lookup_1; eassumption.
Qed.

Lemma inbound_close code reason l s :
  Forall inbound_ok (readables s) ->
  Forall inbound_ok (readables (report (call_close code reason l) s)).
Proof.
  destruct l as [r|w|]; intros Hs; js.
  apply Forall_insert; [done|].
  eapply inbound_ok_close; [eassumption|].
  eapply Forall_lookup_1; eassumption.
Qed.

Lemma inbound_step i s :
  is_open i = false ->
  Forall inbound_ok (readables s) ->
  Forall inbound_ok (readables (step i s)).
Proof.
  destruct i; try discriminate; intros _ Hs.
  - apply (dispatch_preserves (fun s' => Forall inbound_ok (readables s'))); [|done].
    intros l s'. apply inbound_message.
  - apply (dispatch_preserves (fun s' => Forall inbound_ok (readables s'))); [|done].
    intros l s'. apply inbound_close.
  - apply (dispatch_preserves (fun s' => Forall inbound_ok (readables s'))); [|done].
    intros [] s' Hs'. js.
  - js.
  - js.
  - js. apply Forall_alter; [done|]. intros rs _. apply inbound_ok_read.
  - js. apply Forall_insert; [done|apply inbound_ok_cancel].
  - js.
  - js.
  - js.
Qed.

Lemma wired_same s s' :
  wired s -> same_wiring s s' -> Forall inbound_ok (readables s') -> wired s'.
Proof.
  intros [] [] Hin. split; try congruence.
  - intros Hp. rewrite same_opened0 in Hp. apply wired_pending0 in Hp.
    apply length_zero_iff_nil. rewrite same_readables0, Hp. done.
  - intros o Ho. rewrite same_opened0 in Ho. rewrite same_readables0. auto.
Qed.

Lemma step_open_eq p e s :
  on_open (_ws s) = [OnOpen] ->
  step (SocketOpen p e) s
  = let r := length (readables s) in
    let w := length (writables s) in
    {| _ws :=
         sock_on_close (ErrorWritable w)
           (sock_on_close (CloseReadable r)
              (sock_on_message (Enqueue r) (sock_negotiated p e (_ws s))));
       signal_listener := signal_listener s;
       opened := resolve {| extensions := e; protocol := p;
                            readable := r; writable := w |} (opened s);
       closed := closed s;
       readables := readables s ++ [new_readable];
       writables := writables s ++ [new_writable];
       uncaught := uncaught s |}.
Proof. intros Hopen. unfold step. simpl. rewrite Hopen. reflexivity. Qed.

Lemma step_error_eq s :
  on_error (_ws s) = [OnError] ->
  step SocketError s = set_opened (reject (Err "Error" "WebSocket error")) s.
Proof. intros Herr. unfold step. rewrite Herr. reflexivity. Qed.

Lemma wired_step i s : wired s -> wired (step i s).
Proof.
  intros Hs. destruct (is_open_or_error i) eqn:Hi.
  - destruct i; try done.
    + rewrite step_open_eq by apply Hs. destruct Hs. simpl.
      split; simpl; rewrite ?length_app; simpl; try done.
      * rewrite wired_message0, Nat.add_1_r, seq_S, map_app. done.
      * rewrite wired_close0, wired_pairs0, Nat.add_1_r, seq_S, flat_map_app. simpl.
        by rewrite <- (assoc_L (++)).
      * lia.
      * destruct (opened s); done.
      * intros o. destruct (opened s) eqn:Ho; unfold resolve; intros [= <-]; simpl.
        -- rewrite wired_pairs0, wired_pending0 by done. simpl. lia.
        -- destruct (wired_handles0 _ eq_refl) as (? & ? & ?). repeat split; [done..|lia].
      * apply Forall_app. split; [done|]. constructor; [apply inbound_ok_new|done].
    + rewrite step_error_eq by apply Hs. destruct Hs.
      split; simpl; try done.
      * destruct (opened s); done.
      * intros o. destruct (opened s) eqn:Ho; unfold reject; try done.
        intros [= <-]. auto.
  - apply (wired_same s); [done|by apply same_wiring_step|].
    apply inbound_step; [by destruct i|apply Hs].
Qed.

Lemma wired_init options : wired (init options).
Proof. split; simpl; try done. Qed.

Lemma wired_run ins s : wired s -> wired (run ins s).
Proof.
  revert s. induction ins as [|i ins IH]; intros s Hs; [done|].
  rewrite run_cons. apply IH, wired_step, Hs.
Qed.

(** ** [opened] and [closed] along a run *)

Lemma step_opened i s :
  wired s ->
  opened (step i s)
  = match i with
    | SocketOpen p e =>
        resolve {| extensions := e; protocol := p; readable := 0; writable := 0 |}
          (opened s)
    | SocketError => reject (Err "Error" "WebSocket error") (opened s)
    | _ => opened s
    end.
Proof.
  intros Hs. destruct (is_open_or_error i) eqn:Hi.
  - destruct i; try done.
    + rewrite step_open_eq by apply Hs. simpl.
      destruct (opened s) eqn:Ho; try done.
      destruct Hs. rewrite wired_pairs0, wired_pending0 by done. done.
    + rewrite step_error_eq by apply Hs. done.
  - rewrite (same_opened _ _ (same_wiring_step i s Hi)). by destruct i.
Qed.

Lemma opened_run ins : forall s,
  wired s ->
  opened (run ins s)
  = match opened s with Pending => opened_after ins | p => p end.
Proof.
  induction ins as [|i ins IH]; intros s Hs.
  { simpl. by destruct (opened s). }
  rewrite run_cons, IH, step_opened by auto using wired_step.
  unfold opened_after. simpl find.
  destruct i; simpl; try done; by destruct (opened s).
Qed.

Lemma closed_run ins : forall s,
  wired s ->
  closed (run ins s)
  = match closed s with Pending => closed_after ins | p => p end.
Proof.
  induction ins as [|i ins IH]; intros s Hs.
  { simpl. by destruct (closed s). }
  rewrite run_cons, IH by auto using wired_step.
  unfold closed_after. simpl find.
  destruct (is_close i) eqn:Hi.
  - destruct i; try done.
    simpl. rewrite (wired_close _ Hs), dispatch_close_closed. by destruct (closed s).
  - rewrite step_closed_other by done. done.
Qed.

Lemma settled_run_opened more s :
  wired s -> settled (opened s) = true -> opened (run more s) = opened s.
Proof. intros Hs Hset. rewrite opened_run by done. by destruct (opened s). Qed.

Lemma settled_run_closed more s :
  wired s -> settled (closed s) = true -> closed (run more s) = closed s.
Proof. intros Hs Hset. rewrite closed_run by done. by destruct (closed s). Qed.

Lemma step_no_open_streams i s :
  wired s -> is_open i = false ->
  length (readables (step i s)) = length (readables s)
  /\ length (writables (step i s)) = length (writables s).
Proof.
  intros Hs Hi. destruct (is_open_or_error i) eqn:Hoe.
  - destruct i; try done. rewrite step_error_eq by apply Hs. done.
  - destruct (same_wiring_step i s Hoe). done.
Qed.

Lemma run_no_open_streams ins : forall s,
  wired s -> Forall (fun i => is_open i = false) ins ->
  length (readables (run ins s)) = length (readables s)
  /\ length (writables (run ins s)) = length (writables s).
Proof.
  induction ins as [|i ins IH]; intros s Hs Hins; [done|].
  apply Forall_cons in Hins as [Hi Hins]. rewrite run_cons.
  destruct (IH (step i s)) as [-> ->]; [by apply wired_step|done|].
  by apply step_no_open_streams.
Qed.

(** ** The opening coordinator *)

(** C1. [opened] settles exactly once.  It is decided by the first open or
    error event of the run: an open event resolves it with the protocol
    and the extensions the socket shows at that moment and with the
    handles of the stream pair; an error event that comes first rejects it
    with the generic error; once settled, no further input changes it.
    The stream pair does not exist before the first open event and is
    constructed by it. *)
Theorem opened_settles_once options ins more p e :
  let s := run ins (init options) in
  opened s = opened_after ins
  /\ (settled (opened s) = true -> opened (run more s) = opened s)
  /\ (Forall (fun i => is_open i = false) ins ->
      readables s = [] /\ writables s = []
      /\ readables (step (SocketOpen p e) s) = [new_readable]
      /\ writables (step (SocketOpen p e) s) = [new_writable]).
Proof.
  intros s. assert (Hs : wired s) by apply wired_run, wired_init.
  split; [|split].
  - unfold s. rewrite opened_run by apply wired_init. done.
  - by apply settled_run_opened.
  - intros Hins.
    destruct (run_no_open_streams ins (init options)) as [Hr Hw];
      [apply wired_init|done|].
    fold s in Hr, Hw. simpl in Hr, Hw.
    apply length_zero_iff_nil in Hr, Hw.
    rewrite step_open_eq by apply Hs. simpl. by rewrite Hr, Hw.
Qed.

Lemma opened_settles_once_witness :
  let ins := [SocketError; SocketMessage (DataString "early"); Read] in
  let options := {| protocols := None; signal := None; WebSocket := None |} in
  Forall (fun i => is_open i = false) ins
  /\ readables (step (SocketOpen "mqtt" "") (run ins (init options))) = [new_readable].
Proof.
  intros ins options.
  assert (Hins : Forall (fun i => is_open i = false) ins) by (repeat constructor).
  split; [exact Hins|].
  exact (proj1 (proj2 (proj2 (proj2 (proj2
    (opened_settles_once options ins [] "mqtt" "")) Hins)))).
Defined.

(** ** The closing coordinator *)

(** C2. [closed] settles exactly once and only on a close event of the
    socket: after any run it is pending when the run holds no close event,
    and otherwise fulfilled with the code and the reason of the first close
    event, whatever calls (close, abort signal, stream cancel, close or
    abort) and events surround it; once settled, no further input changes
    it. *)
Theorem closed_settles_on_close options ins more :
  let s := run ins (init options) in
  closed s = closed_after ins
  /\ (Forall (fun i => is_close i = false) ins -> closed s = Pending)
  /\ (settled (closed s) = true -> closed (run more s) = closed s).
Proof.
  intros s.
  assert (Hc : closed s = closed_after ins).
  { unfold s. rewrite closed_run by apply wired_init. done. }
  split; [done|split].
  - intros Hins. rewrite Hc. unfold closed_after.
    destruct (find is_close ins) as [i|] eqn:Hfind; [|done].
    apply find_some in Hfind as [Hin Hi].
    rewrite Forall_forall in Hins. apply list_elem_of_In, Hins in Hin. congruence.
  - apply settled_run_closed, wired_run, wired_init.
Qed.

Lemma closed_settles_on_close_witness :
  let ins := [SocketError; Close no_options None; SignalAbort] in
  let options := {| protocols := None; signal := Some TheSignal; WebSocket := None |} in
  Forall (fun i => is_close i = false) ins
  /\ closed (run ins (init options)) = Pending.
Proof.
  intros ins options.
  assert (Hins : Forall (fun i => is_close i = false) ins) by (repeat constructor).
  split; [exact Hins|].
  exact (proj1 (proj2 (closed_settles_on_close options ins [])) Hins).
Defined.

(** C10. [closed] never rejects: after every run it is pending or
    fulfilled with a close code and a reason. *)
Theorem closed_never_rejects options ins e :
  closed (run ins (init options)) <> Rejected e.
Proof.
  rewrite closed_run by apply wired_init. simpl.
  unfold closed_after. destruct (find is_close ins) as [[]|]; done.
Qed.

(** ** What an event does to each stream *)

Lemma dispatch_alters {L A} (proj : State -> list A) (call : L -> M unit)
    (target : L -> option nat) (f : A -> A) :
  (forall l s, proj (report (call l) s)
               = match target l with
                 | Some k => alter f k (proj s)
                 | None => proj s
                 end) ->
  forall ls s, NoDup (omap target ls) ->
  forall j, proj (dispatch call ls s) !! j
            = if decide (j ∈ omap target ls) then f <$> proj s !! j else proj s !! j.
Proof.
  intros Hcall. induction ls as [|l ls IH]; intros s Hnd j.
  { rewrite decide_False; [done|apply not_elem_of_nil]. }
  cbn [dispatch]. specialize (Hcall l s).
  assert (Hom : omap target (l :: ls)
                = match target l with
                  | Some k => k :: omap target ls
                  | None => omap target ls
                  end) by done.
  rewrite Hom in *. clear Hom.
  destruct (target l) as [k|].
  - apply NoDup_cons in Hnd as [Hk Hnd]. rewrite IH, Hcall by done.
    destruct (decide (j = k)) as [->|Hne].
    + rewrite list_lookup_alter_eq.
      rewrite (decide_True (P := k ∈ k :: _)) by apply list_elem_of_here.
      by rewrite decide_False.
    + rewrite list_lookup_alter_ne by done.
      destruct (decide (j ∈ omap target ls)) as [Hj|Hj].
      * by rewrite decide_True by (by apply list_elem_of_further).
      * rewrite decide_False; [done|]. rewrite elem_of_cons. by intros [|].
  - rewrite IH, Hcall by done. done.
Qed.

Lemma insert_alter_lookup {A} (f : A -> A) (l : list A) k x :
  l !! k = Some x -> <[k := f x]> l = alter f k l.
Proof.
  intros Hk. rewrite list_insert_alter. apply list_alter_ext; [|done].
  intros y Hy. congruence.
Qed.

Lemma alter_lookup_None {A} (f : A -> A) (l : list A) k :
  l !! k = None -> alter f k l = l.
Proof.
  intros Hk. apply list_eq. intros j. rewrite list_lookup_alter.
  case_decide; [subst; by rewrite Hk|done].
Qed.

Lemma report_message_readables d l s :
  readables (report (call_message d l) s)
  = match enqueue_target l with
    | Some k => alter (try_enqueue d) k (readables s)
    | None => readables s
    end.
Proof.
  destruct l as [k]. unfold report, call_message, controller_enqueue. simpl.
  destruct (readables s !! k) as [rs|] eqn:Hk.
  - rewrite <- (insert_alter_lookup (try_enqueue d) _ _ rs Hk). unfold try_enqueue.
    destruct (rs_enqueue d rs) as [rs'|]; simpl; [done|]. by rewrite list_insert_id.
  - simpl. by rewrite alter_lookup_None.
Qed.

Lemma report_close_readables code reason l s :
  readables (report (call_close code reason l) s)
  = match close_target l with
    | Some k => alter try_close k (readables s)
    | None => readables s
    end.
Proof.
  destruct l as [k|w|]; [|done..].
  unfold report, call_close, try_catch, controller_close. simpl.
  destruct (readables s !! k) as [rs|] eqn:Hk.
  - rewrite <- (insert_alter_lookup try_close _ _ rs Hk). unfold try_close.
    destruct (rs_close rs) as [rs'|]; simpl; [done|]. by rewrite list_insert_id.
  - simpl. by rewrite alter_lookup_None.
Qed.

Lemma report_close_writables code reason l s :
  writables (report (call_close code reason l) s)
  = match error_target l with
    | Some k => alter (ws_error Undefined) k (writables s)
    | None => writables s
    end.
Proof. destruct l as [k|w|]; js. Qed.

Lemma targets_message ks : omap enqueue_target (map Enqueue ks) = ks.
Proof. induction ks as [|k ks IH]; [done|]. simpl. f_equal. exact IH. Qed.

Lemma targets_close ks : omap close_target (flat_map pair_close_listeners ks) = ks.
Proof. induction ks as [|k ks IH]; [done|]. simpl. f_equal. exact IH. Qed.

Lemma targets_error ks : omap error_target (flat_map pair_close_listeners ks) = ks.
Proof. induction ks as [|k ks IH]; [done|]. simpl. f_equal. exact IH. Qed.

Lemma lookup_seq_store {A} (f : A -> A) (l : list A) n j :
  n = length l ->
  (if decide (j ∈ seq 0 n) then f <$> l !! j else l !! j) = f <$> l !! j.
Proof.
  intros ->. case_decide as Hj; [done|].
  rewrite elem_of_seq in Hj. rewrite (lookup_ge_None_2 l j) by lia. done.
Qed.

Lemma step_message_readables d s j :
  wired s ->
  readables (step (SocketMessage d) s) !! j = try_enqueue d <$> readables s !! j.
Proof.
  intros Hs. simpl. rewrite (wired_message _ Hs).
  rewrite (dispatch_alters readables _ enqueue_target (try_enqueue d))
    by (auto using report_message_readables; rewrite targets_message; apply NoDup_seq).
  rewrite targets_message. by apply lookup_seq_store.
Qed.

Lemma step_close_readables code reason s j :
  wired s ->
  readables (step (SocketClose code reason) s) !! j = try_close <$> readables s !! j.
Proof.
  intros Hs. simpl. rewrite (wired_close _ Hs).
  rewrite (dispatch_alters readables _ close_target try_close)
    by (auto using report_close_readables; simpl; rewrite targets_close; apply NoDup_seq).
  simpl. rewrite targets_close. by apply lookup_seq_store.
Qed.

Lemma step_close_writables code reason s j :
  wired s ->
  writables (step (SocketClose code reason) s) !! j
  = ws_error Undefined <$> writables s !! j.
Proof.
  intros Hs. simpl. rewrite (wired_close _ Hs).
  rewrite (dispatch_alters writables _ error_target (ws_error Undefined))
    by (auto using report_close_writables; simpl; rewrite targets_error; apply NoDup_seq).
  simpl. rewrite targets_error. apply lookup_seq_store. by rewrite (wired_pairs _ Hs).
Qed.

(** ** The inbound adapter *)

Lemma tracks_new : tracks new_readable [] 0.
Proof. by repeat split. Qed.

Lemma tracks_enqueue d rs ms nr :
  tracks rs ms nr -> tracks (try_enqueue d rs) (ms ++ [d]) nr.
Proof.
  destruct rs as [st q cr n res]. unfold tracks. simpl.
  intros (-> & -> & -> & -> & ->).
  unfold try_enqueue, rs_enqueue, canCloseOrEnqueue. simpl.
  destruct (nr - length ms) as [|n] eqn:Hn; simpl; rewrite length_app; simpl.
  - repeat split; [|by rewrite drop_app_le by lia|lia].
    by rewrite take_app_le by lia.
  - repeat split; [| |lia].
    + rewrite !take_ge by (rewrite ?length_app; simpl; lia). by rewrite map_app.
    + rewrite !drop_ge by (rewrite ?length_app; simpl; lia). done.
Qed.

Lemma tracks_read rs ms nr : tracks rs ms nr -> tracks (rs_read rs) ms (S nr).
Proof.
  destruct rs as [st q cr n res]. unfold tracks. simpl.
  intros (-> & -> & -> & -> & ->).
  unfold rs_read. simpl.
  destruct (drop nr ms) as [|d q] eqn:Hq; simpl.
  - assert (length ms <= nr).
    { apply (f_equal length) in Hq. rewrite length_drop in Hq. simpl in Hq. lia. }
    repeat split; [|by rewrite drop_ge by lia|lia].
    by rewrite !take_ge by lia.
  - assert (Hd : ms !! nr = Some d).
    { rewrite <- (Nat.add_0_r nr), <- lookup_drop, Hq. done. }
    pose proof (lookup_lt_Some _ _ _ Hd).
    repeat split.
    + by destruct q.
    + by rewrite (take_S_r _ _ d), map_app.
    + rewrite (drop_S _ d) in Hq by done. congruence.
    + lia.
Qed.

Lemma inbound_step_tracks i s o rs ms nr :
  wired s -> opened s = Fulfilled o ->
  readables s !! 0 = Some rs -> tracks rs ms nr ->
  keeps_inbound_open i = true ->
  exists rs',
    readables (step i s) !! 0 = Some rs'
    /\ tracks rs' (ms ++ messages [i]) (nr + reads [i]).
Proof.
  intros Hs Ho Hrs Htr Hi.
  destruct (wired_handles _ Hs o Ho) as (Hr & Hw & Hlen).
  destruct i; try discriminate; simpl messages; simpl reads;
    rewrite ?app_nil_r, ?Nat.add_0_r.
  - exists rs. split; [|done]. rewrite step_open_eq by apply Hs. simpl.
    by apply lookup_app_l_Some.
  - exists (try_enqueue data rs). split; [|by apply tracks_enqueue].
    rewrite step_message_readables, Hrs by done. done.
  - exists rs. split; [|done]. rewrite step_error_eq by apply Hs. done.
  - exists rs. split; [|done]. js.
  - exists rs. split; [|done]. js.
  - exists (rs_read rs). split; [|rewrite Nat.add_1_r; by apply tracks_read].
    unfold step, with_streams. rewrite Ho, Hr. unfold reader_read. simpl.
    rewrite list_lookup_alter_eq, Hrs. done.
  - exists rs. split; [|done]. js.
  - exists rs. split; [|done]. js.
  - exists rs. split; [|done]. js.
Qed.

Lemma messages_cons i ins : messages (i :: ins) = messages [i] ++ messages ins.
Proof. by destruct i. Qed.

Lemma reads_cons i ins : reads (i :: ins) = reads [i] + reads ins.
Proof. by destruct i. Qed.

Lemma inbound_run_tracks ins : forall s o rs ms nr,
  wired s -> opened s = Fulfilled o ->
  readables s !! 0 = Some rs -> tracks rs ms nr ->
  Forall (fun i => keeps_inbound_open i = true) ins ->
  exists rs',
    readables (run ins s) !! 0 = Some rs'
    /\ tracks rs' (ms ++ messages ins) (nr + reads ins).
Proof.
  induction ins as [|i ins IH]; intros s o rs ms nr Hs Ho Hrs Htr Hins.
  { exists rs. simpl. by rewrite app_nil_r, Nat.add_0_r. }
  apply Forall_cons in Hins as [Hi Hins].
  destruct (inbound_step_tracks i s o rs ms nr) as (rs1 & Hrs1 & Htr1); [done..|].
  rewrite run_cons, messages_cons, reads_cons, (assoc_L (++)), Nat.add_assoc.
  apply (IH (step i s) o rs1); try done.
  - by apply wired_step.
  - rewrite step_opened, Ho by done. by destruct i.
Qed.

(** C3. After the open event, whatever inputs follow short of a close
    event and a cancel of the consumer, the inbound stream has handed the
    payloads of the message events to the reads one by one in the order of
    the events: the reads made so far were answered with the first
    payloads, each with one, and the payloads not yet read wait in the
    queue, in order.  Nothing is dropped, merged, split or reordered. *)
Theorem inbound_yields_messages_in_order options p e ins :
  Forall (fun i => keeps_inbound_open i = true) ins ->
  let s := run ins (step (SocketOpen p e) (init options)) in
  exists rs,
    opened s = Fulfilled {| extensions := e; protocol := p; readable := 0; writable := 0 |}
    /\ readables s !! 0 = Some rs
    /\ r_state rs = RReadable
    /\ r_results rs = map ReadValue (take (reads ins) (messages ins))
    /\ r_queue rs = drop (reads ins) (messages ins).
Proof.
  intros Hins s.
  set (s0 := step (SocketOpen p e) (init options)).
  assert (Hs0 : wired s0) by apply wired_step, wired_init.
  assert (Ho : opened s0
               = Fulfilled {| extensions := e; protocol := p; readable := 0; writable := 0 |})
    by done.
  destruct (inbound_run_tracks ins s0 _ new_readable [] 0 Hs0 Ho)
    as (rs & Hrs & Hst & _ & Hres & Hq & _); [done|apply tracks_new|done|].
  exists rs. repeat split; try done.
  unfold s. fold s0. rewrite opened_run, Ho by done. done.
Qed.

Lemma inbound_yields_messages_in_order_witness :
  let a := DataString "a" in
  let b := DataArrayBuffer [1; 2]%Z in
  let c := DataString "c" in
  let ins := [Read; SocketMessage a; SocketMessage b; Write (SendString "x") None;
              SocketMessage c; Read] in
  let options := {| protocols := None; signal := None; WebSocket := None |} in
  Forall (fun i => keeps_inbound_open i = true) ins
  /\ exists rs,
       readables (run ins (step (SocketOpen "" "" ) (init options))) !! 0 = Some rs
       /\ r_results rs = [ReadValue a; ReadValue b]
       /\ r_queue rs = [c].
Proof.
  intros a b c ins options.
  assert (Hins : Forall (fun i => keeps_inbound_open i = true) ins)
    by (repeat constructor).
  split; [exact Hins|].
  destruct (inbound_yields_messages_in_order options "" "" ins Hins)
    as (rs & _ & Hrs & _ & Hres & Hq).
  exists rs. split; [exact Hrs|]. split; [exact Hres|exact Hq].
Defined.

(** ** The outbound adapter: writes *)

Lemma step_write_ok s o ws0 chunk :
  opened s = Fulfilled o ->
  writables s !! writable o = Some ws0 ->
  w_state ws0 = WWritable ->
  step (Write chunk None) s
  = set_writables (alter (w_log (Ok tt)) (writable o))
      (set_ws (sock_call (CallSend chunk)) s).
Proof.
  intros Ho Hw Hst. unfold step, with_streams. rewrite Ho.
  unfold writer_op, writer_write. rewrite Hw, Hst. reflexivity.
Qed.

Lemma step_write_throws s o ws0 chunk e :
  opened s = Fulfilled o ->
  writables s !! writable o = Some ws0 ->
  w_state ws0 = WWritable ->
  step (Write chunk (Some e)) s
  = set_writables (alter (w_log (Throw e)) (writable o))
      (set_writables (alter (w_set_state (WErrored e)) (writable o))
         (set_ws (sock_call (CallSend chunk)) s)).
Proof.
  intros Ho Hw Hst. unfold step, with_streams. rewrite Ho.
  unfold writer_op, writer_write. rewrite Hw, Hst. reflexivity.
Qed.

Lemma run_writes_ok chunks : forall s o ws0,
  opened s = Fulfilled o ->
  writables s !! writable o = Some ws0 ->
  w_state ws0 = WWritable ->
  let s' := run (map (fun chunk => Write chunk None) chunks) s in
  calls (_ws s') = calls (_ws s) ++ map CallSend chunks
  /\ writables s' !! writable o
     = Some {| w_state := WWritable;
               w_results := w_results ws0 ++ map (fun _ => Ok tt) chunks |}.
Proof.
  induction chunks as [|chunk chunks IH]; intros s o ws0 Ho Hw Hst; cbv zeta.
  { simpl. rewrite !app_nil_r, Hw. destruct ws0. simpl in Hst. by subst. }
  cbn [map]. rewrite run_cons, (step_write_ok s o ws0) by done.
  edestruct (IH (set_writables (alter (w_log (Ok tt)) (writable o))
                  (set_ws (sock_call (CallSend chunk)) s)) o (w_log (Ok tt) ws0))
    as [Hcalls Hres]; [done| |done|].
  { simpl. by rewrite list_lookup_alter_eq, Hw. }
  rewrite Hcalls, Hres. simpl. by rewrite <- !(assoc_L (++)).
Qed.

(** C4. While the outbound stream is writable, every write runs the write
    hook, which calls [send] on the socket with the chunk within the same
    step: a sequence of writes whose sends succeed makes exactly these
    [send] calls, in the order of the writes, and every write is
    fulfilled.  A write whose [send] throws is rejected with what was
    thrown; the socket then has received the [send] call and no [close]
    call, and [closed], [opened] and the inbound stream are as before. *)
Theorem outbound_forwards_writes s o ws0 chunks chunk e :
  opened s = Fulfilled o ->
  writables s !! writable o = Some ws0 ->
  w_state ws0 = WWritable ->
  (let s' := run (map (fun chunk => Write chunk None) chunks) s in
   calls (_ws s') = calls (_ws s) ++ map CallSend chunks
   /\ writables s' !! writable o
      = Some {| w_state := WWritable;
                w_results := w_results ws0 ++ map (fun _ => Ok tt) chunks |})
  /\ (let s' := step (Write chunk (Some e)) s in
      calls (_ws s') = calls (_ws s) ++ [CallSend chunk]
      /\ writables s' !! writable o
         = Some {| w_state := WErrored e;
                   w_results := w_results ws0 ++ [Throw e] |}
      /\ closed s' = closed s
      /\ opened s' = opened s
      /\ readables s' = readables s).
Proof.
  intros Ho Hw Hst. split; [by apply run_writes_ok|].
  rewrite (step_write_throws s o ws0) by done. simpl.
  repeat split. by rewrite !list_lookup_alter_eq, Hw.
Qed.

Lemma outbound_forwards_writes_witness :
  let options := {| protocols := None; signal := None; WebSocket := None |} in
  let s := step (SocketOpen "" "") (init options) in
  let x := SendString "x" in
  let y := SendBlob [7]%Z in
  (opened s = Fulfilled {| extensions := ""; protocol := ""; readable := 0; writable := 0 |}
   /\ writables s !! 0 = Some new_writable
   /\ w_state new_writable = WWritable)
  /\ calls (_ws (run [Write x None; Write y None] s)) = [CallSend x; CallSend y]
  /\ calls (_ws (step (Write x (Some (Err "InvalidStateError" ""))) s)) = [CallSend x].
Proof.
  intros options s x y.
  assert (Ho : opened s = Fulfilled {| extensions := ""; protocol := "";
                                       readable := 0; writable := 0 |})
    by reflexivity.
  assert (Hw : writables s !! 0 = Some new_writable) by reflexivity.
  assert (Hst : w_state new_writable = WWritable) by reflexivity.
  split; [by repeat split|].
  destruct (outbound_forwards_writes s _ new_writable [x; y] x
              (Err "InvalidStateError" "") Ho Hw Hst)
    as [[Hcalls _] [Hthrow _]].
  split; [exact Hcalls|exact Hthrow].
Defined.

(** ** The connection initiator *)

Lemma includes_elem_of x l : includes x l = true <-> x ∈ l.
Proof.
  unfold includes. rewrite existsb_exists. split.
  - intros (y & Hy & Heq). apply String.eqb_eq in Heq. subst. by apply list_elem_of_In.
  - intros Hx. exists x. split; [by apply list_elem_of_In|apply String.eqb_refl].
Qed.

Lemma message_names_allowed a :
  a ∈ ALLOWED_PROTOCOLS ->
  exists pre post,
    invalid_protocol_message
    = (pre ++ dquote ++ a ++ dquote ++ post)%string.
Proof.
  unfold ALLOWED_PROTOCOLS. rewrite !elem_of_cons, elem_of_nil.
  intros [->|[->|[->|[->|[]]]]].
  - exists (substring 0 84 invalid_protocol_message),
           (substring 89 200 invalid_protocol_message). reflexivity.
  - exists (substring 0 91 invalid_protocol_message),
           (substring 97 200 invalid_protocol_message). reflexivity.
  - exists (substring 0 99 invalid_protocol_message),
           (substring 106 200 invalid_protocol_message). reflexivity.
  - exists (substring 0 108 invalid_protocol_message),
           (substring 116 200 invalid_protocol_message). reflexivity.
Qed.

(** C5. When the protocol of the address is none of the four allowed
    ones, the constructor throws a SyntaxError whose message quotes each
    allowed protocol, and it has done nothing before that: no listener is
    put on the signal and the socket constructor is not called, whatever
    that constructor would have done. *)
Theorem invalid_protocol_rejected (URL_protocol : string -> Result string)
    (new_WebSocket : WebSocketCtor -> string -> option Protocols -> option Value)
    url options p :
  URL_protocol url = Ok p ->
  p ∉ ALLOWED_PROTOCOLS ->
  WebSocketStream_new URL_protocol new_WebSocket url options
  = ([], Throw (Err "SyntaxError" invalid_protocol_message))
  /\ forall a, a ∈ ALLOWED_PROTOCOLS ->
       exists pre post,
         invalid_protocol_message = (pre ++ dquote ++ a ++ dquote ++ post)%string.
Proof.
  intros Hurl Hp. split; [|apply message_names_allowed].
  unfold WebSocketStream_new. rewrite Hurl.
  destruct (includes p ALLOWED_PROTOCOLS) eqn:Hinc; [|done].
  by apply includes_elem_of in Hinc.
Qed.

Lemma invalid_protocol_rejected_witness :
  let options := {| protocols := Some (OneProtocol "mqtt"); signal := Some TheSignal;
                    WebSocket := Some (InjectedWebSocket "MockWebSocket") |} in
  (example_URL_protocol "ftp://localhost" = Ok "ftp:"
   /\ "ftp:" ∉ ALLOWED_PROTOCOLS)
  /\ WebSocketStream_new example_URL_protocol (fun _ _ _ => None) "ftp://localhost" options
     = ([], Throw (Err "SyntaxError" invalid_protocol_message)).
Proof.
  intros options.
  assert (Hurl : example_URL_protocol "ftp://localhost" = Ok "ftp:") by reflexivity.
  assert (Hp : "ftp:" ∉ ALLOWED_PROTOCOLS).
  { unfold ALLOWED_PROTOCOLS. rewrite !elem_of_cons, elem_of_nil.
    intros [H|[H|[H|[H|[]]]]]; discriminate H. }
  split; [by split|].
  exact (proj1 (invalid_protocol_rejected example_URL_protocol (fun _ _ _ => None)
                  "ftp://localhost" options "ftp:" Hurl Hp)).
Defined.

(** ** The outbound adapter: close and abort *)

Lemma ws_error_not_writable e ws :
  w_state ws <> WWritable -> ws_error e ws = ws.
Proof. unfold ws_error. by destruct (w_state ws). Qed.

Ltac lookup_alters :=
  repeat first
    [ rewrite list_lookup_alter_eq
    | rewrite list_lookup_alter_ne by done
    | rewrite list_lookup_alter; case_decide; simplify_eq
    | progress simpl ];
  simpl;
  try match goal with H : ?l !! ?w = Some _ |- context [?l !! ?w] => rewrite H end;
  simpl; eauto; try congruence.

Lemma step_writable_stays i s w ws0 :
  wired s ->
  writables s !! w = Some ws0 -> w_state ws0 <> WWritable ->
  exists ws1, writables (step i s) !! w = Some ws1 /\ w_state ws1 = w_state ws0.
Proof.
  intros Hs Hw Hst. destruct i.
  - exists ws0. split; [|done]. rewrite step_open_eq by apply Hs. simpl.
    by apply lookup_app_l_Some.
  - exists ws0. split; [|done]. simpl.
    rewrite (dispatch_preserves (fun s' => writables s' = writables s)); [done| |done].
    intros [] s' <-. js.
  - exists ws0. split; [|done].
    rewrite step_close_writables, Hw by done. simpl.
    by rewrite ws_error_not_writable.
  - exists ws0. split; [|done]. rewrite step_error_eq by apply Hs. done.
  - exists ws0. js.
  - exists ws0. js.
  - exists ws0. js.
  - exists ws0. js.
  - js; lookup_alters.
  - js; lookup_alters.
  - js; lookup_alters.
Qed.

Lemma run_writable_stays ins : forall s w ws0,
  wired s ->
  writables s !! w = Some ws0 -> w_state ws0 <> WWritable ->
  exists ws1, writables (run ins s) !! w = Some ws1 /\ w_state ws1 = w_state ws0.
Proof.
  induction ins as [|i ins IH]; intros s w ws0 Hs Hw Hst; [by exists ws0|].
  destruct (step_writable_stays i s w ws0) as (ws1 & Hw1 & Hst1); [done..|].
  rewrite run_cons.
  destruct (IH (step i s) w ws1) as (ws2 & Hw2 & Hst2);
    [by apply wired_step|done|congruence|].
  exists ws2. split; [done|congruence].
Qed.

Lemma step_own_completion i s o ws0 :
  own_completion i ->
  opened s = Fulfilled o ->
  writables s !! writable o = Some ws0 ->
  exists ws1,
    writables (step i s) !! writable o = Some ws1 /\ w_state ws1 <> WWritable.
Proof.
  intros [->|(X & [e|] & ->)] Ho Hw; unfold step, with_streams; rewrite Ho;
    unfold writer_op, writer_close, writer_abort; rewrite Hw;
    destruct (w_state ws0) eqn:Hst; simpl;
    rewrite ?list_lookup_alter_eq, ?Hw; simpl; eexists; (split; [done|]);
    unfold w_log, w_set_state; simpl; congruence.
Qed.

Lemma wired_writable_handle s o :
  wired s -> opened s = Fulfilled o ->
  exists ws0, writables s !! writable o = Some ws0.
Proof.
  intros Hs Ho. destruct (wired_handles _ Hs o Ho) as (_ & -> & Hlen).
  apply lookup_lt_is_Some. rewrite (wired_pairs _ Hs). done.
Qed.

Lemma wired_readable_handle s o :
  wired s -> opened s = Fulfilled o ->
  exists rs, readables s !! readable o = Some rs /\ inbound_ok rs.
Proof.
  intros Hs Ho. destruct (wired_handles _ Hs o Ho) as (-> & _ & Hlen).
  destruct (lookup_lt_is_Some_2 (readables s) 0 Hlen) as [rs Hrs].
  exists rs. split; [done|].
  eapply Forall_lookup_1; [apply Hs|done].
Qed.

(** C6. A close event errors an outbound stream only if that stream is
    still writable.  Once the producer has closed or aborted the outbound
    stream, so that the close hook or the abort hook of the adapter has
    asked the socket to close, the stream is closed or errored with the
    abort reason, it stays so whatever follows, and the close event of the
    socket leaves it as it is. *)
Theorem outbound_errored_only_when_writable options pre i post code reason o :
  let s := run pre (init options) in
  let s1 := run post (step i s) in
  opened s = Fulfilled o ->
  own_completion i ->
  (exists ws1,
     writables s1 !! writable o = Some ws1
     /\ w_state ws1 <> WWritable
     /\ writables (step (SocketClose code reason) s1) !! writable o = Some ws1)
  /\ (forall w ws,
        writables s !! w = Some ws ->
        writables (step (SocketClose code reason) s) !! w
        = Some match w_state ws with
               | WWritable => w_set_state (WErrored Undefined) ws
               | _ => ws
               end).
Proof.
  intros s s1 Ho Hi.
  assert (Hs : wired s) by apply wired_run, wired_init.
  assert (Hs1 : wired s1) by apply wired_run, wired_step, Hs.
  split.
  - destruct (wired_writable_handle s o Hs Ho) as [ws0 Hw0].
    destruct (step_own_completion i s o ws0 Hi Ho Hw0) as (ws' & Hw' & Hst').
    destruct (run_writable_stays post (step i s) (writable o) ws')
      as (ws1 & Hw1 & Hst1); [by apply wired_step|done..|].
    exists ws1. fold s1 in Hw1. split; [done|]. split; [congruence|].
    rewrite step_close_writables, Hw1 by done. simpl.
    rewrite ws_error_not_writable; [done|congruence].
  - intros w ws Hw. rewrite step_close_writables, Hw by done. done.
Qed.

Lemma outbound_errored_only_when_writable_witness :
  let options := {| protocols := None; signal := None; WebSocket := None |} in
  let pre := [SocketOpen "" ""; Write (SendString "x") None] in
  let s1 := run [SocketMessage (DataString "late")] (step (Abort "X" None) (run pre (init options))) in
  (opened (run pre (init options))
   = Fulfilled {| extensions := ""; protocol := ""; readable := 0; writable := 0 |}
   /\ own_completion (Abort "X" None))
  /\ exists ws1,
       writables s1 !! 0 = Some ws1
       /\ w_state ws1 <> WWritable
       /\ writables (step (SocketClose 1000 "X") s1) !! 0 = Some ws1.
Proof.
  intros options pre s1.
  assert (Ho : opened (run pre (init options))
               = Fulfilled {| extensions := ""; protocol := "";
                              readable := 0; writable := 0 |}) by reflexivity.
  assert (Hi : own_completion (Abort "X" None)) by (right; by exists "X", None).
  split; [by split|].
  exact (proj1 (outbound_errored_only_when_writable options pre (Abort "X" None)
                  [SocketMessage (DataString "late")] 1000 "X" _ Ho Hi)).
Defined.

(** ** Completion of the inbound stream *)

Lemma try_close_draining rs : inbound_ok rs -> draining (try_close rs).
Proof.
  destruct rs as [st q cr n res].
  unfold draining, try_close, rs_close, inbound_ok, canCloseOrEnqueue. simpl.
  destruct st, cr, q; simpl; done.
Qed.

Lemma draining_read d q rs :
  draining rs -> r_queue rs = d :: q ->
  draining (rs_read rs)
  /\ r_queue (rs_read rs) = q
  /\ r_results (rs_read rs) = r_results rs ++ [ReadValue d].
Proof.
  destruct rs as [st q0 cr n res].
  unfold draining, inbound_ok, canCloseOrEnqueue, rs_read. simpl.
  intros [Hok Hcan] ->. destruct st, cr; try done. simpl. by destruct q.
Qed.

Lemma draining_done rs :
  draining rs -> r_queue rs = [] ->
  r_state (rs_read rs) = RClosed
  /\ r_results (rs_read rs) = r_results rs ++ [ReadDone].
Proof.
  destruct rs as [st q0 cr n res].
  unfold draining, inbound_ok, canCloseOrEnqueue, rs_read. simpl.
  intros [Hok Hcan] ->. destruct st, cr; try done. by destruct Hok.
Qed.

Lemma drain_reads q : forall rs,
  draining rs -> r_queue rs = q ->
  let rs' := Nat.iter (S (length q)) rs_read rs in
  r_state rs' = RClosed
  /\ r_results rs' = r_results rs ++ map ReadValue q ++ [ReadDone].
Proof.
  induction q as [|d q IH]; intros rs Hdr Hq; cbv zeta.
  - by apply draining_done.
  - cbn [length]. rewrite Nat.iter_succ_r.
    destruct (draining_read d q rs Hdr Hq) as (Hdr' & Hq' & Hres').
    destruct (IH (rs_read rs) Hdr' Hq') as [Hst Hres].
    split; [exact Hst|]. rewrite Hres, Hres'. cbn [map].
    by rewrite <- (assoc_L (++)).
Qed.

Lemma step_read_eq s o :
  opened s = Fulfilled o ->
  step Read s = set_readables (alter rs_read (readable o)) s.
Proof. intros Ho. unfold step, with_streams. by rewrite Ho. Qed.

Lemma run_reads n : forall s o,
  opened s = Fulfilled o ->
  readables (run (repeat Read n) s) !! readable o
  = Nat.iter n rs_read <$> readables s !! readable o.
Proof.
  induction n as [|n IH]; intros s o Ho.
  { simpl. by destruct (readables s !! readable o). }
  cbn [repeat]. rewrite run_cons, (step_read_eq s o Ho), (IH _ o) by done.
  simpl. rewrite list_lookup_alter_eq.
  destruct (readables s !! readable o) as [rs|]; [|done].
  change (Some (Nat.iter n rs_read (rs_read rs)) = Some (Nat.iter (S n) rs_read rs)).
  by rewrite Nat.iter_succ_r.
Qed.

Lemma close_event_drains code reason s o :
  wired s -> opened s = Fulfilled o ->
  exists rs,
    readables s !! readable o = Some rs
    /\ readables (step (SocketClose code reason) s) !! readable o = Some (try_close rs)
    /\ draining (try_close rs).
Proof.
  intros Hs Ho. destruct (wired_readable_handle s o Hs Ho) as (rs & Hrs & Hok).
  exists rs. split; [done|]. split; [|by apply try_close_draining].
  rewrite step_close_readables, Hrs by done. done.
Qed.

Lemma step_abort_eq s o ws0 X thrown :
  opened s = Fulfilled o ->
  writables s !! writable o = Some ws0 ->
  w_state ws0 = WWritable ->
  step (Abort X thrown) s
  = set_writables
      (alter (w_log match thrown with None => Ok tt | Some e => Throw e end)
         (writable o))
      (set_ws (sock_call (CallClose None (Some X)))
         (set_writables (alter (w_set_state (WErrored (Str X))) (writable o)) s)).
Proof.
  intros Ho Hw Hst. unfold step, with_streams. rewrite Ho.
  unfold writer_op, writer_abort. rewrite Hw, Hst. by destruct thrown.
Qed.

Lemma close_event_calls code reason s :
  calls (_ws (step (SocketClose code reason) s)) = calls (_ws s).
Proof.
  simpl. apply (dispatch_preserves (fun s' => calls (_ws s') = calls (_ws s))); [|done].
  intros [] s' <-; js.
Qed.

(** C7. Aborting the writable outbound stream with the reason X makes one
    call on the socket, [close(undefined, X)]: the default code and X as
    the reason; the outbound stream is errored with X.  The promise of the
    abort is fulfilled when the socket takes the request; when the socket
    refuses the reason and throws, the call has been made all the same and
    the promise is rejected with what was thrown.  When a close event then
    arrives, whatever came in between, it makes no further call on the
    socket and the inbound stream completes: the reads that follow get the
    chunks still queued, in order, and then done, and the stream ends
    closed, not errored. *)
Theorem abort_closes_with_reason options pre X thrown mid code reason o ws0 :
  let s := run pre (init options) in
  let s1 := step (Abort X thrown) s in
  let s2 := step (SocketClose code reason) (run mid s1) in
  opened s = Fulfilled o ->
  writables s !! writable o = Some ws0 ->
  w_state ws0 = WWritable ->
  calls (_ws s1) = calls (_ws s) ++ [CallClose None (Some X)]
  /\ writables s1 !! writable o
     = Some {| w_state := WErrored (Str X);
               w_results := w_results ws0
                            ++ [match thrown with None => Ok tt | Some e => Throw e end] |}
  /\ calls (_ws s2) = calls (_ws (run mid s1))
  /\ exists rs2,
       readables s2 !! readable o = Some rs2
       /\ exists rs3,
            readables (run (repeat Read (S (length (r_queue rs2)))) s2) !! readable o
            = Some rs3
            /\ r_state rs3 = RClosed
            /\ r_results rs3 = r_results rs2 ++ map ReadValue (r_queue rs2) ++ [ReadDone].
Proof.
  intros s s1 s2 Ho Hw Hst.
  assert (Hs : wired s) by apply wired_run, wired_init.
  assert (Hm : wired (run mid s1)) by apply wired_run, wired_step, Hs.
  assert (Ho1 : opened (run mid s1) = Fulfilled o).
  { rewrite opened_run by apply wired_step, Hs.
    unfold s1. rewrite step_opened, Ho by done. done. }
  split; [|split; [|split]].
  - unfold s1. rewrite (step_abort_eq s o ws0) by done. done.
  - unfold s1. rewrite (step_abort_eq s o ws0) by done. simpl.
    by rewrite !list_lookup_alter_eq, Hw.
  - apply close_event_calls.
  - destruct (close_event_drains code reason (run mid s1) o Hm Ho1)
      as (rs & Hrs & Hrs2 & Hdr).
    fold s2 in Hrs2. exists (try_close rs). split; [done|].
    assert (Ho2 : opened s2 = Fulfilled o).
    { unfold s2. rewrite step_opened, Ho1 by done. done. }
    rewrite (run_reads _ s2 o Ho2), Hrs2. simpl.
    eexists. split; [done|]. by apply drain_reads.
Qed.

Lemma abort_closes_with_reason_witness :
  let options := {| protocols := None; signal := None; WebSocket := None |} in
  let pre := [SocketOpen "" ""; SocketMessage (DataString "m")] in
  let s := run pre (init options) in
  let refused := Err "SyntaxError" "The close reason is too long" in
  (opened s = Fulfilled {| extensions := ""; protocol := ""; readable := 0; writable := 0 |}
   /\ writables s !! 0 = Some new_writable
   /\ w_state new_writable = WWritable)
  /\ calls (_ws (step (Abort "Abort by test" None) s))
     = [CallClose None (Some "Abort by test")]
  /\ writables (step (Abort "long" (Some refused)) s) !! 0
     = Some {| w_state := WErrored (Str "long"); w_results := [Throw refused] |}.
Proof.
  intros options pre s refused.
  assert (Ho : opened s = Fulfilled {| extensions := ""; protocol := "";
                                       readable := 0; writable := 0 |})
    by reflexivity.
  assert (Hw : writables s !! 0 = Some new_writable) by reflexivity.
  assert (Hst : w_state new_writable = WWritable) by reflexivity.
  split; [by repeat split|]. split.
  - exact (proj1 (abort_closes_with_reason options pre "Abort by test" None []
                    1000 "Abort by test" _ new_writable Ho Hw Hst)).
  - exact (proj1 (proj2 (abort_closes_with_reason options pre "long" (Some refused) []
                           1000 "" _ new_writable Ho Hw Hst))).
Defined.

Lemma close_event_uncaught code reason s :
  uncaught (step (SocketClose code reason) s) = uncaught s.
Proof.
  simpl. apply (dispatch_preserves (fun s' => uncaught s' = uncaught s)); [|done].
  intros [] s' <-; js.
Qed.



(** ** The abort signal *)

Lemma dispatch_disarm {L} (call : L -> M unit) b ls : forall s,
  (forall l s', report (call l) (set_signal_listener b s')
                = set_signal_listener b (report (call l) s')) ->
  dispatch call ls (set_signal_listener b s)
  = set_signal_listener b (dispatch call ls s).
Proof.
  intros s Hcall. revert s.
  induction ls as [|l ls IH]; intros s; simpl; [done|].
  by rewrite Hcall, IH.
Qed.

Lemma step_disarm b i s :
  is_signal i = false ->
  step i (set_signal_listener b s) = set_signal_listener b (step i s).
Proof.
  destruct i; try discriminate; intros _.
  - apply (dispatch_disarm call_open b (on_open (_ws s))
             (set_ws (sock_negotiated protocol0 extensions0) s)).
    intros [] s'. reflexivity.
  - apply dispatch_disarm. intros [] s'. js.
  - apply dispatch_disarm. intros [] s'; js.
  - apply dispatch_disarm. intros [] s'. reflexivity.
  - by destruct thrown.
  - js.
  - js.
  - js.
  - js.
  - js.
Qed.

Lemma run_disarm b ins : forall s,
  Forall (fun i => is_signal i = false) ins ->
  run ins (set_signal_listener b s) = set_signal_listener b (run ins s).
Proof.
  induction ins as [|i ins IH]; intros s Hins; [done|].
  apply Forall_cons in Hins as [Hi Hins].
  by rewrite !run_cons, step_disarm, IH.
Qed.

Lemma step_signal_listener i s :
  is_signal i = false -> signal_listener (step i s) = signal_listener s.
Proof.
  destruct i; try discriminate; intros _; simpl;
    try (apply (dispatch_preserves (fun s' => signal_listener s' = _));
         [intros [] s' <-|done]);
    js.
Qed.

Lemma run_fired ins : forall s,
  signal_listener s = false ->
  run ins s = run (List.filter (fun i => negb (is_signal i)) ins) s.
Proof.
  induction ins as [|i ins IH]; intros s Hs; [done|].
  destruct (is_signal i) eqn:Hi.
  - destruct i; try discriminate.
    rewrite run_cons. cbn [List.filter negb is_signal]. simpl step. rewrite Hs. by apply IH.
  - cbn [List.filter]. rewrite Hi. cbn [negb]. rewrite !run_cons. apply IH.
    by rewrite step_signal_listener.
Qed.

Lemma filter_not_signal ins :
  Forall (fun i => is_signal i = false)
    (List.filter (fun i => negb (is_signal i)) ins).
Proof.
  apply Forall_forall. intros i Hi.
  apply list_elem_of_In, filter_In in Hi as [_ Hi]. by destruct (is_signal i).
Qed.

(** C9. While the abort listener is registered, firing the signal calls
    [close()] once: the socket receives one [close(undefined, undefined)].
    The listener is then gone, so firing the signal again does nothing.
    The state the signal leaves is the state an explicit [close()] without
    argument leaves, but for the registration of the listener, and this
    remains so whatever inputs follow: the promises, the two streams, the
    calls on the socket and the reported exceptions are the same. *)
Theorem signal_acts_as_close s ins n :
  signal_listener s = true ->
  let s1 := step SignalAbort s in
  calls (_ws s1) = calls (_ws s) ++ [CallClose None None]
  /\ s1 = set_signal_listener false (step (Close no_options None) s)
  /\ run (repeat SignalAbort n) s1 = s1
  /\ run ins s1
     = set_signal_listener false
         (run (List.filter (fun i => negb (is_signal i)) ins)
            (step (Close no_options None) s)).
Proof.
  intros Hsig s1.
  assert (Hs1 : s1 = set_signal_listener false (step (Close no_options None) s)).
  { unfold s1. simpl. by rewrite Hsig. }
  assert (Hoff : signal_listener s1 = false) by by rewrite Hs1.
  split; [by rewrite Hs1|]. split; [done|]. split.
  - rewrite run_fired by done.
    replace (List.filter _ (repeat SignalAbort n)) with (@nil Input); [done|].
    induction n as [|n IH]; [done|exact IH].
  - rewrite run_fired by done. rewrite Hs1.
    apply run_disarm, filter_not_signal.
Qed.

Lemma signal_acts_as_close_witness :
  let options := {| protocols := None; signal := Some TheSignal; WebSocket := None |} in
  let s := step (SocketOpen "" "") (init options) in
  let ins := [SignalAbort; SocketClose 1000 ""; Read] in
  signal_listener s = true
  /\ run ins (step SignalAbort s)
     = set_signal_listener false
         (run [SocketClose 1000 ""; Read] (step (Close no_options None) s)).
Proof.
  intros options s ins.
  assert (Hsig : signal_listener s = true) by reflexivity.
  split; [exact Hsig|].
  exact (proj2 (proj2 (proj2 (signal_acts_as_close s ins 2 Hsig)))).
Defined.

(** ** The scenarios of the test suite, replayed on the model *)

Example test_accepts_ws :
  WebSocketStream_new example_URL_protocol (fun _ _ _ => None) "ws://localhost"
    {| protocols := None; signal := None; WebSocket := None |}
  = ([NewWebSocket GlobalWebSocket "ws://localhost" None],
     Ok (init {| protocols := None; signal := None; WebSocket := None |})).
Proof. reflexivity. Qed.

Example test_opens_and_closes :
  let s := run [SocketOpen "" ""; Close {| opt_closeCode := None; opt_reason := Some "bye" |} None;
                SocketClose 1000 "bye"]
             (init {| protocols := None; signal := None; WebSocket := None |}) in
  opened s = Fulfilled {| extensions := ""; protocol := ""; readable := 0; writable := 0 |}
  /\ calls (_ws s) = [CallClose None (Some "bye")]
  /\ closed s = Fulfilled {| closeCode := 1000; reason := "bye" |}.
Proof. by repeat split. Qed.

Example test_closed_from_the_other_end :
  let s := run [SocketOpen "" ""; SocketClose 1001 "Going away"; Read]
             (init {| protocols := None; signal := None; WebSocket := None |}) in
  (r_results <$> readables s !! 0) = Some [ReadDone]
  /\ (w_state <$> writables s !! 0) = Some (WErrored Undefined)
  /\ closed s = Fulfilled {| closeCode := 1001; reason := "Going away" |}.
Proof. by repeat split. Qed.

Example test_cancel_readable :
  let s := run [SocketOpen "" ""; Cancel; SocketClose 1000 ""]
             (init {| protocols := None; signal := None; WebSocket := None |}) in
  calls (_ws s) = [CallClose None None]
  /\ (r_state <$> readables s !! 0) = Some RClosed
  /\ (w_state <$> writables s !! 0) = Some (WErrored Undefined)
  /\ uncaught s = [].
Proof. by repeat split. Qed.

Example test_abort_writable :
  let s := run [SocketOpen "" ""; Abort "Abort by test" None; SocketClose 1000 "Abort by test"; Read]
             (init {| protocols := None; signal := None; WebSocket := None |}) in
  calls (_ws s) = [CallClose None (Some "Abort by test")]
  /\ (r_results <$> readables s !! 0) = Some [ReadDone]
  /\ (w_state <$> writables s !! 0) = Some (WErrored (Str "Abort by test")).
Proof. by repeat split. Qed.

(** * Further properties of [index.ts] *)

Lemma state_eq s s' :
  _ws s = _ws s' -> signal_listener s = signal_listener s' ->
  opened s = opened s' -> closed s = closed s' ->
  readables s = readables s' -> writables s = writables s' ->
  uncaught s = uncaught s' -> s = s'.
Proof. destruct s, s'. simpl. by intros -> -> -> -> -> -> ->. Qed.

(** ** The constructor *)

(** X1. The constructor returns an instance exactly when the URL parses,
    its protocol is one of the four allowed ones and the constructor of
    the socket does not throw; it then has done what [index.ts:87-88] does
    and nothing else, and the instance is the fresh one.  When the URL
    does not parse, what the parser throws leaves the constructor, and no
    listener was registered and no socket built.  When the constructor of
    the socket throws, that leaves the constructor too, after the listener
    was put on the signal. *)
Theorem constructor_outcome (URL_protocol : string -> Result string)
    (new_WebSocket : WebSocketCtor -> string -> option Protocols -> option Value)
    url options :
  let refused :=
    new_WebSocket (default GlobalWebSocket (WebSocket options)) url (protocols options) in
  (forall effects s,
     WebSocketStream_new URL_protocol new_WebSocket url options = (effects, Ok s)
     <-> (exists p, URL_protocol url = Ok p /\ p ∈ ALLOWED_PROTOCOLS)
         /\ refused = None
         /\ effects = construct_effects url options /\ s = init options)
  /\ (forall e, URL_protocol url = Throw e ->
        WebSocketStream_new URL_protocol new_WebSocket url options = ([], Throw e))
  /\ (forall p e, URL_protocol url = Ok p -> p ∈ ALLOWED_PROTOCOLS ->
        refused = Some e ->
        WebSocketStream_new URL_protocol new_WebSocket url options
        = (construct_effects url options, Throw e)).
Proof.
  intros refused. unfold WebSocketStream_new. fold refused.
  split; [|split].
  - intros effects s. destruct (URL_protocol url) as [p|e].
    + destruct (includes p ALLOWED_PROTOCOLS) eqn:Hinc; simpl.
      * apply includes_elem_of in Hinc. destruct refused as [e|].
        -- split; [done|]. by intros (_ & ? & _).
        -- split.
           ++ intros [= <- <-]. split; [eauto|done].
           ++ by intros (_ & _ & -> & ->).
      * split; [done|]. intros ((p' & [= <-] & Hp) & _).
        apply includes_elem_of in Hp. congruence.
    + split; [done|]. by intros ((p & Hp & _) & _).
  - by intros e ->.
  - intros p e -> Hp ->. apply includes_elem_of in Hp. by rewrite Hp.
Qed.

Lemma constructor_outcome_witness :
  let options := {| protocols := Some (ManyProtocols ["amqp"; "mqtt"]);
                    signal := Some TheSignal; WebSocket := None |} in
  let refuses_fragment :=
    fun (_ : WebSocketCtor) (url : string) (_ : option Protocols) =>
      if String.eqb url "wss://example.org/#top"
      then Some (Err "SyntaxError" "The URL contains a fragment")
      else None in
  WebSocketStream_new example_URL_protocol refuses_fragment
    "https://example.org/feed" options
  = ([SignalAddEventListener;
      NewWebSocket GlobalWebSocket "https://example.org/feed"
        (Some (ManyProtocols ["amqp"; "mqtt"]))],
     Ok (init options))
  /\ WebSocketStream_new example_URL_protocol refuses_fragment "no scheme here" options
     = ([], Throw (Err "TypeError" "Invalid URL"))
  /\ WebSocketStream_new example_URL_protocol refuses_fragment
       "wss://example.org/#top" options
     = ([SignalAddEventListener;
         NewWebSocket GlobalWebSocket "wss://example.org/#top"
           (Some (ManyProtocols ["amqp"; "mqtt"]))],
        Throw (Err "SyntaxError" "The URL contains a fragment")).
Proof.
  intros options refuses_fragment.
  destruct (constructor_outcome example_URL_protocol refuses_fragment
              "https://example.org/feed" options) as (Hok & _ & _).
  destruct (constructor_outcome example_URL_protocol refuses_fragment
              "no scheme here" options) as (_ & Hthrow & _).
  destruct (constructor_outcome example_URL_protocol refuses_fragment
              "wss://example.org/#top" options) as (_ & _ & Hrefused).
  split; [|split].
  - apply Hok. split; [|done]. exists "https:". split; [reflexivity|].
    unfold ALLOWED_PROTOCOLS. rewrite !elem_of_cons. auto.
  - apply Hthrow. reflexivity.
  - apply (Hrefused "wss:"); [reflexivity| |reflexivity].
    unfold ALLOWED_PROTOCOLS. rewrite !elem_of_cons. auto.
Defined.

(** ** What the socket's events never do *)

Lemma socket_event_calls i s :
  is_socket_event i = true -> calls (_ws (step i s)) = calls (_ws s).
Proof.
  destruct i; try discriminate; intros _; simpl;
    (apply (dispatch_preserves (fun s' => calls (_ws s') = _)); [intros [] s' <-|done]);
    js.
Qed.

Lemma step_binaryType i s : binaryType (_ws (step i s)) = binaryType (_ws s).
Proof.
  destruct i; simpl;
    try (apply (dispatch_preserves (fun s' => binaryType (_ws s') = _));
         [intros [] s' <-|done]);
    js.
Qed.

(** X2. The binary type requested at [index.ts:89] stays: after every
    run the socket is set to deliver binary messages as array buffers. *)
Theorem binaryType_stays_arraybuffer options ins :
  binaryType (_ws (run ins (init options))) = "arraybuffer".
Proof.
  assert (H : forall s, binaryType (_ws (run ins s)) = binaryType (_ws s)).
  { induction ins as [|i ins IH]; intros s; [done|].
    rewrite run_cons, IH. apply step_binaryType. }
  by rewrite H.
Qed.

(** X3. No listener of the adapter calls the socket: an open, message,
    close or error event, in any state, adds no [send] and no [close] to
    the calls made on the socket. *)
Theorem socket_events_make_no_call i s :
  is_socket_event i = true -> calls (_ws (step i s)) = calls (_ws s).
Proof. apply socket_event_calls. Qed.

Lemma socket_events_make_no_call_witness :
  let s := run [SocketOpen "" ""; Write (SendString "x") None]
             (init {| protocols := None; signal := None; WebSocket := None |}) in
  is_socket_event (SocketClose 1006 "") = true
  /\ calls (_ws (step (SocketClose 1006 "") s)) = [CallSend (SendString "x")].
Proof.
  intros s.
  assert (Hi : is_socket_event (SocketClose 1006 "") = true) by reflexivity.
  split; [exact Hi|].
  exact (socket_events_make_no_call (SocketClose 1006 "") s Hi).
Defined.

(** X4. Before the first open event no listener takes messages: a message
    event then changes nothing, its payload is lost. *)
Theorem message_before_open_is_dropped options ins data :
  Forall (fun i => is_open i = false) ins ->
  step (SocketMessage data) (run ins (init options)) = run ins (init options).
Proof.
  intros Hins.
  assert (Hs : wired (run ins (init options))) by apply wired_run, wired_init.
  destruct (run_no_open_streams ins (init options)) as [Hr _];
    [apply wired_init|done|].
  simpl. rewrite (wired_message _ Hs), Hr. done.
Qed.

Lemma message_before_open_is_dropped_witness :
  let options := {| protocols := None; signal := None; WebSocket := None |} in
  let ins := [SocketError; Close no_options None] in
  Forall (fun i => is_open i = false) ins
  /\ step (SocketMessage (DataString "lost")) (run ins (init options))
     = run ins (init options).
Proof.
  intros options ins.
  assert (Hins : Forall (fun i => is_open i = false) ins) by (repeat constructor).
  split; [exact Hins|].
  exact (message_before_open_is_dropped options ins (DataString "lost") Hins).
Defined.

(** X5. Once [opened] has settled, an error event of the socket changes
    nothing at all: neither promise, no stream, no call.  An error in the
    middle of a connection shows only through the close event that
    follows it. *)
Theorem error_after_settled_changes_nothing options ins :
  let s := run ins (init options) in
  settled (opened s) = true -> step SocketError s = s.
Proof.
  intros s Hset.
  assert (Hs : wired s) by apply wired_run, wired_init.
  rewrite step_error_eq by apply Hs.
  apply state_eq; try done. simpl. by destruct (opened s).
Qed.

Lemma error_after_settled_changes_nothing_witness :
  let options := {| protocols := None; signal := None; WebSocket := None |} in
  let ins := [SocketOpen "" ""; SocketMessage (DataString "m")] in
  settled (opened (run ins (init options))) = true
  /\ step SocketError (run ins (init options)) = run ins (init options).
Proof.
  intros options ins.
  assert (Hset : settled (opened (run ins (init options))) = true) by reflexivity.
  split; [exact Hset|].
  exact (error_after_settled_changes_nothing options ins Hset).
Defined.

(** ** What reaches the socket *)

Lemma sends_app cs1 cs2 : sends (cs1 ++ cs2) = sends cs1 ++ sends cs2.
Proof. apply omap_app. Qed.

Ltac sends_same :=
  repeat first [ progress simpl | rewrite sends_app | rewrite app_nil_r ]; done.

Lemma requests_cons i ins : requests (i :: ins) = requests [i] ++ requests ins.
Proof. by destruct i. Qed.

Ltac one_or_no_call :=
  simpl;
  first [ by (exists []; rewrite app_nil_r; split; [done|apply sublist_nil_l])
        | by (eexists [_]; split; [reflexivity|done]) ].

Lemma step_requests i s :
  exists l,
    calls (_ws (step i s)) = calls (_ws s) ++ l /\ l `sublist_of` requests [i].
Proof.
  destruct (is_socket_event i) eqn:Hi.
  { exists []. rewrite socket_event_calls, app_nil_r by done.
    split; [done|apply sublist_nil_l]. }
  destruct i; try discriminate; js; one_or_no_call.
Qed.

Lemma calls_sublist_requests ins : forall s,
  exists l,
    calls (_ws (run ins s)) = calls (_ws s) ++ l /\ l `sublist_of` requests ins.
Proof.
  induction ins as [|i ins IH]; intros s.
  { exists []. by rewrite app_nil_r. }
  destruct (step_requests i s) as (l1 & Hl1 & Hsub1).
  destruct (IH (step i s)) as (l2 & Hl2 & Hsub2).
  exists (l1 ++ l2). rewrite run_cons, Hl2, Hl1, requests_cons, (assoc_L (++)).
  split; [done|by apply sublist_app].
Qed.

Lemma sublist_sends cs1 cs2 : cs1 `sublist_of` cs2 -> sends cs1 `sublist_of` sends cs2.
Proof.
  induction 1 as [|c cs1 cs2 _ IH|c cs1 cs2 _ IH]; [done|..].
  - destruct c; [by apply sublist_skip|done].
  - destruct c; [by apply sublist_cons|done].
Qed.

Lemma sends_requests ins : sends (requests ins) = written ins.
Proof.
  induction ins as [|i ins IH]; [done|].
  rewrite requests_cons, sends_app, IH. by destruct i.
Qed.

(** X6. Every call the adapter makes on the socket is caused by one call
    of the user or by the abort signal, and carries its arguments: after
    every run, the calls made on the socket are, each counted as often as
    it was made, among the [send] of the writes with their chunks and the
    [close] of the close(), cancel, close-of-the-writer, abort and signal
    inputs with their code and reason; no call is made twice for one input
    or made up, and the events of the socket cause none.  The chunks
    passed to [send] come in the order of the writes.  How a [close]
    falls between the [send] calls of writes made in the same synchronous
    block is not stated. *)
Theorem calls_come_from_inputs options ins :
  calls (_ws (run ins (init options))) ⊆+ requests ins
  /\ sends (calls (_ws (run ins (init options)))) `sublist_of` written ins.
Proof.
  destruct (calls_sublist_requests ins (init options)) as (l & Hl & Hsub).
  rewrite Hl. simpl. split.
  - by apply sublist_submseteq.
  - rewrite <- sends_requests. by apply sublist_sends.
Qed.

(** ** The cancel hook of the inbound stream, index.ts:101 *)

Lemma step_cancel_eq s o rs :
  opened s = Fulfilled o ->
  readables s !! readable o = Some rs ->
  r_state rs = RReadable ->
  step Cancel s
  = set_ws (sock_call (CallClose None None))
      (set_readables (<[readable o := rs_cancel rs]>) s).
Proof.
  intros Ho Hrs Hst. unfold step, with_streams. rewrite Ho.
  unfold reader_cancel. rewrite Hrs, Hst. reflexivity.
Qed.

(** X8. Cancelling the inbound stream while it is readable asks the
    socket to close once, without code and reason; the stream is closed,
    the reads that waited are answered with done and the chunks not yet
    read are discarded.  The outbound stream and the two promises are not
    touched.  Cancelling a stream that is closed already does nothing and
    asks the socket nothing. *)
Theorem cancel_closes_socket_once s o rs :
  opened s = Fulfilled o ->
  readables s !! readable o = Some rs ->
  (r_state rs = RReadable ->
   let s' := step Cancel s in
   calls (_ws s') = calls (_ws s) ++ [CallClose None None]
   /\ readables s' !! readable o
      = Some {| r_state := RClosed; r_queue := [];
                r_closeRequested := r_closeRequested rs;
                r_readRequests := 0;
                r_results := r_results rs ++ repeat ReadDone (r_readRequests rs) |}
   /\ writables s' = writables s
   /\ opened s' = opened s /\ closed s' = closed s /\ uncaught s' = uncaught s)
  /\ (r_state rs = RClosed -> step Cancel s = s).
Proof.
  intros Ho Hrs. split.
  - intros Hst. rewrite (step_cancel_eq s o rs) by done. simpl.
    repeat split. apply list_lookup_insert_eq. by eapply lookup_lt_Some.
  - intros Hst. unfold step, with_streams. rewrite Ho.
    unfold reader_cancel. by rewrite Hrs, Hst.
Qed.

Lemma cancel_closes_socket_once_witness :
  let options := {| protocols := None; signal := None; WebSocket := None |} in
  let s := run [SocketOpen "" ""; Read; Read] (init options) in
  (opened s = Fulfilled {| extensions := ""; protocol := ""; readable := 0; writable := 0 |}
   /\ (r_state <$> readables s !! 0) = Some RReadable)
  /\ calls (_ws (step Cancel s)) = [CallClose None None]
  /\ (r_results <$> readables (step Cancel s) !! 0) = Some [ReadDone; ReadDone].
Proof.
  intros options s.
  assert (Ho : opened s = Fulfilled {| extensions := ""; protocol := "";
                                       readable := 0; writable := 0 |})
    by reflexivity.
  assert (Hrs : readables s !! 0 = Some (rs_read (rs_read new_readable)))
    by reflexivity.
  split; [by split|].
  destruct (cancel_closes_socket_once s _ _ Ho Hrs) as [Hlive _].
  destruct (Hlive eq_refl) as (Hcalls & Hres & _).
  split; [exact Hcalls|]. exact (f_equal (fmap r_results) Hres).
Defined.

Lemma step_cancel_outbound s :
  opened (step Cancel s) = opened s
  /\ writables (step Cancel s) = writables s
  /\ sends (calls (_ws (step Cancel s))) = sends (calls (_ws s)).
Proof. repeat split; js; sends_same. Qed.

(** X9. Cancelling the inbound stream does not stop the outbound stream:
    while the socket has not closed, the writes made after the cancel
    still reach [send], each with its chunk, in order. *)
Theorem writes_continue_after_cancel s o ws0 chunks :
  opened s = Fulfilled o ->
  writables s !! writable o = Some ws0 ->
  w_state ws0 = WWritable ->
  let s' := run (Cancel :: map (fun chunk => Write chunk None) chunks) s in
  sends (calls (_ws s')) = sends (calls (_ws s)) ++ chunks
  /\ writables s' !! writable o
     = Some {| w_state := WWritable;
               w_results := w_results ws0 ++ map (fun _ => Ok tt) chunks |}.
Proof.
  intros Ho Hw Hst. cbv zeta. rewrite run_cons.
  destruct (step_cancel_outbound s) as (Ho' & Hw' & Hsent).
  destruct (run_writes_ok chunks (step Cancel s) o ws0) as [Hcalls Hres];
    [congruence..|].
  rewrite Hcalls, Hres, sends_app, Hsent. split; [|done]. f_equal.
  clear. induction chunks as [|c chunks IH]; [done|]. simpl. f_equal. exact IH.
Qed.

Lemma writes_continue_after_cancel_witness :
  let options := {| protocols := None; signal := None; WebSocket := None |} in
  let s := step (SocketOpen "" "") (init options) in
  let x := SendString "x" in
  let y := SendString "y" in
  (opened s = Fulfilled {| extensions := ""; protocol := ""; readable := 0; writable := 0 |}
   /\ writables s !! 0 = Some new_writable /\ w_state new_writable = WWritable)
  /\ calls (_ws (run [Cancel; Write x None; Write y None] s))
     = [CallClose None None; CallSend x; CallSend y]
  /\ sends (calls (_ws (run [Cancel; Write x None; Write y None] s))) = [x; y].
Proof.
  intros options s x y.
  assert (Ho : opened s = Fulfilled {| extensions := ""; protocol := "";
                                       readable := 0; writable := 0 |})
    by reflexivity.
  assert (Hw : writables s !! 0 = Some new_writable) by reflexivity.
  assert (Hst : w_state new_writable = WWritable) by reflexivity.
  split; [by repeat split|]. split; [reflexivity|].
  exact (proj1 (writes_continue_after_cancel s _ new_writable [x; y] Ho Hw Hst)).
Defined.

(** ** The close hook of the outbound stream, index.ts:106 *)

Lemma step_writer_close_eq s o ws0 :
  opened s = Fulfilled o ->
  writables s !! writable o = Some ws0 ->
  w_state ws0 = WWritable ->
  step WriterClose s
  = set_writables (alter (w_log (Ok tt)) (writable o))
      (set_writables (alter (w_set_state WClosed) (writable o))
         (set_ws (sock_call (CallClose None None)) s)).
Proof.
  intros Ho Hw Hst. unfold step, with_streams. rewrite Ho.
  unfold writer_op, writer_close. rewrite Hw, Hst. reflexivity.
Qed.

(** X10. Closing the writable outbound stream asks the socket to close
    once, without code and reason, and the stream is closed with the
    close fulfilled; the inbound stream and the two promises are not
    touched. *)
Theorem writer_close_closes_socket_once s o ws0 :
  opened s = Fulfilled o ->
  writables s !! writable o = Some ws0 ->
  w_state ws0 = WWritable ->
  let s' := step WriterClose s in
  calls (_ws s') = calls (_ws s) ++ [CallClose None None]
  /\ writables s' !! writable o
     = Some {| w_state := WClosed; w_results := w_results ws0 ++ [Ok tt] |}
  /\ readables s' = readables s
  /\ opened s' = opened s /\ closed s' = closed s /\ uncaught s' = uncaught s.
Proof.
  intros Ho Hw Hst. cbv zeta. rewrite (step_writer_close_eq s o ws0) by done.
  simpl. repeat split. by rewrite !list_lookup_alter_eq, Hw.
Qed.

Lemma writer_close_closes_socket_once_witness :
  let options := {| protocols := None; signal := None; WebSocket := None |} in
  let s := run [SocketOpen "" ""; Write (SendString "x") None] (init options) in
  (opened s = Fulfilled {| extensions := ""; protocol := ""; readable := 0; writable := 0 |}
   /\ writables s !! 0 = Some (w_log (Ok tt) new_writable)
   /\ w_state (w_log (Ok tt) new_writable) = WWritable)
  /\ calls (_ws (step WriterClose s)) = [CallSend (SendString "x"); CallClose None None].
Proof.
  intros options s.
  assert (Ho : opened s = Fulfilled {| extensions := ""; protocol := "";
                                       readable := 0; writable := 0 |})
    by reflexivity.
  assert (Hw : writables s !! 0 = Some (w_log (Ok tt) new_writable)) by reflexivity.
  assert (Hst : w_state (w_log (Ok tt) new_writable) = WWritable) by reflexivity.
  split; [by repeat split|].
  exact (proj1 (writer_close_closes_socket_once s _ _ Ho Hw Hst)).
Defined.

(** ** An outbound stream that is no longer writable *)

Lemma step_dead_producer i s o ws0 :
  is_producer_op i = true ->
  opened s = Fulfilled o ->
  writables s !! writable o = Some ws0 ->
  w_state ws0 <> WWritable ->
  step i s
  = set_writables (alter (w_log (dead_result (w_state ws0) i)) (writable o)) s.
Proof.
  intros Hi Ho Hw Hst. destruct i; try discriminate;
    unfold step, with_streams; rewrite Ho;
    unfold writer_op, writer_write, writer_close, writer_abort; rewrite Hw;
    by destruct (w_state ws0).
Qed.

Lemma run_dead_producer ins : forall s o ws0,
  Forall (fun i => is_producer_op i = true) ins ->
  opened s = Fulfilled o ->
  writables s !! writable o = Some ws0 ->
  w_state ws0 <> WWritable ->
  let s' := run ins s in
  _ws s' = _ws s /\ readables s' = readables s
  /\ opened s' = opened s /\ closed s' = closed s /\ uncaught s' = uncaught s
  /\ writables s' !! writable o
     = Some {| w_state := w_state ws0;
               w_results := w_results ws0 ++ map (dead_result (w_state ws0)) ins |}.
Proof.
  induction ins as [|i ins IH]; intros s o ws0 Hins Ho Hw Hst; cbv zeta.
  { simpl. rewrite app_nil_r, Hw. by destruct ws0. }
  apply Forall_cons in Hins as [Hi Hins].
  rewrite run_cons, (step_dead_producer i s o ws0) by done.
  edestruct (IH (set_writables (alter (w_log (dead_result (w_state ws0) i))
                                  (writable o)) s) o
               (w_log (dead_result (w_state ws0) i) ws0))
    as (-> & -> & -> & -> & -> & ->); [done..| |done|].
  { simpl. by rewrite list_lookup_alter_eq, Hw. }
  simpl. by rewrite <- (assoc_L (++)).
Qed.

(** X11. Once the outbound stream is closed or errored, nothing the
    producer does reaches the socket: a write, a close or an abort makes
    no [send] and no [close], and changes neither the state of the stream
    nor anything else.  A write is rejected with the error of the stream,
    or with a TypeError on a closed stream; a close is rejected with a
    TypeError; an abort is fulfilled and does nothing. *)
Theorem dead_outbound_never_reaches_socket ins s o ws0 :
  Forall (fun i => is_producer_op i = true) ins ->
  opened s = Fulfilled o ->
  writables s !! writable o = Some ws0 ->
  w_state ws0 <> WWritable ->
  let s' := run ins s in
  _ws s' = _ws s /\ readables s' = readables s
  /\ opened s' = opened s /\ closed s' = closed s /\ uncaught s' = uncaught s
  /\ writables s' !! writable o
     = Some {| w_state := w_state ws0;
               w_results := w_results ws0 ++ map (dead_result (w_state ws0)) ins |}.
Proof. apply run_dead_producer. Qed.

Lemma dead_outbound_never_reaches_socket_witness :
  let options := {| protocols := None; signal := None; WebSocket := None |} in
  let s := run [SocketOpen "" ""; WriterClose] (init options) in
  let ins := [Write (SendString "late") None; WriterClose; Abort "why" None] in
  (Forall (fun i => is_producer_op i = true) ins
   /\ opened s = Fulfilled {| extensions := ""; protocol := ""; readable := 0; writable := 0 |}
   /\ (w_state <$> writables s !! 0) = Some WClosed)
  /\ calls (_ws (run ins s)) = [CallClose None None]
  /\ (w_results <$> writables (run ins s) !! 0)
     = Some [Ok tt; Throw TypeError_closed_writable; Throw TypeError_closed_writable; Ok tt].
Proof.
  intros options s ins.
  assert (Hins : Forall (fun i => is_producer_op i = true) ins) by (repeat constructor).
  assert (Ho : opened s = Fulfilled {| extensions := ""; protocol := "";
                                       readable := 0; writable := 0 |})
    by reflexivity.
  assert (Hw : writables s !! 0
               = Some (w_log (Ok tt) (w_set_state WClosed new_writable)))
    by reflexivity.
  assert (Hst : w_state (w_log (Ok tt) (w_set_state WClosed new_writable)) <> WWritable)
    by discriminate.
  split; [by repeat split|].
  destruct (dead_outbound_never_reaches_socket ins s _ _ Hins Ho Hw Hst)
    as (Hws & _ & _ & _ & _ & Hres).
  split; [by rewrite Hws|]. exact (f_equal (fmap w_results) Hres).
Defined.

(** X12. A write whose [send] throws errors the outbound stream for good:
    every later write is rejected with the value that was thrown, and
    [send] is not called again. *)
Theorem failed_send_stops_later_writes s o ws0 chunk e later :
  opened s = Fulfilled o ->
  writables s !! writable o = Some ws0 ->
  w_state ws0 = WWritable ->
  let s' := run (Write chunk (Some e) :: map (fun c => Write c None) later) s in
  calls (_ws s') = calls (_ws s) ++ [CallSend chunk]
  /\ writables s' !! writable o
     = Some {| w_state := WErrored e;
               w_results := w_results ws0 ++ Throw e :: map (fun _ => Throw e) later |}.
Proof.
  intros Ho Hw Hst. cbv zeta. rewrite run_cons.
  rewrite (step_write_throws s o ws0) by done.
  edestruct (run_dead_producer (map (fun c => Write c None) later)
               (set_writables (alter (w_log (Throw e)) (writable o))
                  (set_writables (alter (w_set_state (WErrored e)) (writable o))
                     (set_ws (sock_call (CallSend chunk)) s)))
               o (w_log (Throw e) (w_set_state (WErrored e) ws0)))
    as (-> & _ & _ & _ & _ & ->); [|done| |done|].
  { apply Forall_forall. intros i Hi. apply list_elem_of_fmap in Hi as (c & -> & _). done. }
  { simpl. by rewrite !list_lookup_alter_eq, Hw. }
  split; [done|]. simpl. rewrite map_map, <- (assoc_L (++)). done.
Qed.

Lemma failed_send_stops_later_writes_witness :
  let options := {| protocols := None; signal := None; WebSocket := None |} in
  let s := step (SocketOpen "" "") (init options) in
  let e := Err "InvalidStateError" "" in
  (opened s = Fulfilled {| extensions := ""; protocol := ""; readable := 0; writable := 0 |}
   /\ writables s !! 0 = Some new_writable /\ w_state new_writable = WWritable)
  /\ calls (_ws (run [Write (SendString "a") (Some e); Write (SendString "b") None] s))
     = [CallSend (SendString "a")].
Proof.
  intros options s e.
  assert (Ho : opened s = Fulfilled {| extensions := ""; protocol := "";
                                       readable := 0; writable := 0 |})
    by reflexivity.
  assert (Hw : writables s !! 0 = Some new_writable) by reflexivity.
  assert (Hst : w_state new_writable = WWritable) by reflexivity.
  split; [by repeat split|].
  exact (proj1 (failed_send_stops_later_writes s _ new_writable (SendString "a") e
                  [SendString "b"] Ho Hw Hst)).
Defined.

(** ** The close event, index.ts:97-99, 104 and 113-118 *)

Lemma close_event_ws code reason s : _ws (step (SocketClose code reason) s) = _ws s.
Proof.
  simpl. apply (dispatch_preserves (fun s' => _ws s' = _ws s)); [|done].
  intros [] s' <-; js.
Qed.

Lemma step_close_closed code reason s :
  wired s ->
  closed (step (SocketClose code reason) s)
  = resolve {| closeCode := code; reason := reason |} (closed s).
Proof. intros Hs. simpl. by rewrite (wired_close _ Hs), dispatch_close_closed. Qed.

(** X13. When the socket closes while the outbound stream is writable,
    the one event settles [closed] with its code and reason, errors the
    outbound stream with undefined and completes the inbound stream: the
    reads that follow get the chunks still queued, in order, and then
    done.  The event makes no call on the socket and reports nothing. *)
Theorem remote_close_outcome options pre code reason o ws0 :
  let s := run pre (init options) in
  let s1 := step (SocketClose code reason) s in
  opened s = Fulfilled o ->
  writables s !! writable o = Some ws0 ->
  w_state ws0 = WWritable ->
  closed s1 = resolve {| closeCode := code; reason := reason |} (closed s)
  /\ writables s1 !! writable o
     = Some {| w_state := WErrored Undefined; w_results := w_results ws0 |}
  /\ _ws s1 = _ws s /\ uncaught s1 = uncaught s
  /\ exists rs1,
       readables s1 !! readable o = Some rs1
       /\ exists rs2,
            readables (run (repeat Read (S (length (r_queue rs1)))) s1) !! readable o
            = Some rs2
            /\ r_state rs2 = RClosed
            /\ r_results rs2 = r_results rs1 ++ map ReadValue (r_queue rs1) ++ [ReadDone].
Proof.
  intros s s1 Ho Hw Hst.
  assert (Hs : wired s) by apply wired_run, wired_init.
  split; [|split; [|split; [|split]]].
  - by apply step_close_closed.
  - unfold s1. rewrite step_close_writables, Hw by done. simpl.
    unfold ws_error. by rewrite Hst.
  - apply close_event_ws.
  - apply close_event_uncaught.
  - destruct (close_event_drains code reason s o Hs Ho) as (rs & Hrs & Hrs1 & Hdr).
    fold s1 in Hrs1. exists (try_close rs). split; [done|].
    assert (Ho1 : opened s1 = Fulfilled o).
    { unfold s1. rewrite step_opened, Ho by done. done. }
    rewrite (run_reads _ s1 o Ho1), Hrs1. simpl.
    eexists. split; [done|]. by apply drain_reads.
Qed.

Lemma remote_close_outcome_witness :
  let options := {| protocols := None; signal := None; WebSocket := None |} in
  let pre := [SocketOpen "" ""; SocketMessage (DataString "m")] in
  let s := run pre (init options) in
  (opened s = Fulfilled {| extensions := ""; protocol := ""; readable := 0; writable := 0 |}
   /\ writables s !! 0 = Some new_writable /\ w_state new_writable = WWritable)
  /\ closed (step (SocketClose 1001 "Going away") s)
     = Fulfilled {| closeCode := 1001; reason := "Going away" |}
  /\ (w_state <$> writables (step (SocketClose 1001 "Going away") s) !! 0)
     = Some (WErrored Undefined).
Proof.
  intros options pre s.
  assert (Ho : opened s = Fulfilled {| extensions := ""; protocol := "";
                                       readable := 0; writable := 0 |})
    by reflexivity.
  assert (Hw : writables s !! 0 = Some new_writable) by reflexivity.
  assert (Hst : w_state new_writable = WWritable) by reflexivity.
  split; [by repeat split|].
  destruct (remote_close_outcome options pre 1001 "Going away" _ new_writable Ho Hw Hst)
    as (Hclosed & Hwr & _).
  split; [exact Hclosed|]. exact (f_equal (fmap w_state) Hwr).
Defined.

Lemma try_close_idemp rs : try_close (try_close rs) = try_close rs.
Proof.
  destruct rs as [st q cr n res].
  unfold try_close, rs_close, canCloseOrEnqueue. simpl.
  destruct st, cr, q; done.
Qed.

Lemma ws_error_idemp e ws : ws_error e (ws_error e ws) = ws_error e ws.
Proof. destruct ws as [[] res]; done. Qed.

(** X14. A close event that follows a close event changes nothing,
    whatever code and reason it carries: [closed] keeps the first result,
    the streams stay as the first event left them, and the attempt to
    close the inbound stream again is not reported. *)
Theorem repeated_close_event_changes_nothing options ins code reason code' reason' :
  let s := step (SocketClose code reason) (run ins (init options)) in
  step (SocketClose code' reason') s = s.
Proof.
  cbv zeta. set (s0 := run ins (init options)).
  set (s := step (SocketClose code reason) s0).
  assert (Hs0 : wired s0) by apply wired_run, wired_init.
  assert (Hs : wired s) by apply wired_step, Hs0.
  apply state_eq.
  - apply close_event_ws.
  - by apply step_signal_listener.
  - by apply (same_opened _ _ (same_wiring_step (SocketClose code' reason') s eq_refl)).
  - rewrite step_close_closed by done. unfold s.
    rewrite step_close_closed by done. by destruct (closed s0).
  - apply list_eq. intros j. rewrite step_close_readables by done.
    unfold s. rewrite step_close_readables by done.
    destruct (readables s0 !! j); simpl; [|done]. by rewrite try_close_idemp.
  - apply list_eq. intros j. rewrite step_close_writables by done.
    unfold s. rewrite step_close_writables by done.
    destruct (writables s0 !! j); simpl; [|done]. by rewrite ws_error_idemp.
  - apply close_event_uncaught.
Qed.

(** ** Messages the inbound stream no longer takes, index.ts:96 *)

(** X15. After the first open event alone, once the inbound stream takes
    no more chunks (the socket has closed or the consumer has cancelled),
    a message event loses its payload: no stream changes, and the
    TypeError that [controller.enqueue] throws leaves the listener and is
    reported as an uncaught exception. *)
Theorem message_after_completion_is_reported options ins data rs :
  let s := run ins (init options) in
  readables s = [rs] ->
  canCloseOrEnqueue rs = false ->
  step (SocketMessage data) s = set_uncaught (fun u => u ++ [TypeError_enqueue]) s.
Proof.
  intros s Hrs Hcan.
  assert (Hs : wired s) by apply wired_run, wired_init.
  simpl. rewrite (wired_message _ Hs), Hrs. simpl.
  unfold report, call_message, controller_enqueue, rs_enqueue.
  rewrite Hrs. simpl. by rewrite Hcan.
Qed.

Lemma message_after_completion_is_reported_witness :
  let options := {| protocols := None; signal := None; WebSocket := None |} in
  let ins := [SocketOpen "" ""; Cancel] in
  (readables (run ins (init options)) = [rs_cancel new_readable]
   /\ canCloseOrEnqueue (rs_cancel new_readable) = false)
  /\ uncaught (step (SocketMessage (DataString "late")) (run ins (init options)))
     = [TypeError_enqueue].
Proof.
  intros options ins.
  assert (Hrs : readables (run ins (init options)) = [rs_cancel new_readable])
    by reflexivity.
  assert (Hcan : canCloseOrEnqueue (rs_cancel new_readable) = false) by reflexivity.
  split; [by split|].
  by rewrite (message_after_completion_is_reported options ins (DataString "late")
                _ Hrs Hcan).
Defined.

(** ** The inbound stream is never errored *)

Lemma never_errored_new : never_errored new_readable.
Proof. split; [done|constructor]. Qed.

Lemma never_errored_enqueue d rs rs' :
  rs_enqueue d rs = Some rs' -> never_errored rs -> never_errored rs'.
Proof.
  unfold rs_enqueue, never_errored.
  destruct (canCloseOrEnqueue rs); [|done].
  destruct (r_readRequests rs); intros [= <-] [Hst Hres]; simpl; split; try done.
  apply Forall_app. split; [done|]. by repeat constructor.
Qed.

Lemma Forall_repeat_done n :
  Forall (fun res => forall e, res <> ReadError e) (repeat ReadDone n).
Proof. induction n; simpl; by constructor. Qed.

Lemma never_errored_close rs rs' :
  rs_close rs = Some rs' -> never_errored rs -> never_errored rs'.
Proof.
  unfold rs_close, never_errored, readable_close.
  destruct (canCloseOrEnqueue rs); [|done].
  destruct (r_queue rs); intros [= <-] [Hst Hres]; simpl; split; try done.
  apply Forall_app. split; [done|apply Forall_repeat_done].
Qed.

Lemma never_errored_read rs : never_errored rs -> never_errored (rs_read rs).
Proof.
  unfold rs_read, never_errored. intros [Hst Hres].
  destruct (r_state rs) eqn:Hs; [| |by destruct (Hst e)].
  - destruct (r_queue rs) as [|d [|d' q]]; simpl; (split; [by destruct (r_closeRequested rs)|]);
      try done; apply Forall_app; split; try done; by repeat constructor.
  - simpl. split; [done|]. apply Forall_app. split; [done|]. by repeat constructor.
Qed.

Lemma never_errored_cancel rs : never_errored rs -> never_errored (rs_cancel rs).
Proof.
  unfold rs_cancel, never_errored. intros [Hst Hres]. simpl. split; [done|].
  apply Forall_app. split; [done|apply Forall_repeat_done].
Qed.

Lemma never_errored_step i s :
  Forall never_errored (readables s) -> Forall never_errored (readables (step i s)).
Proof.
  intros Hs. destruct i; simpl.
  - apply (dispatch_preserves (fun s' => Forall never_errored (readables s'))); [|done].
    intros [] s' Hs'. unfold report. simpl.
    apply Forall_app. split; [done|]. constructor; [apply never_errored_new|done].
  - apply (dispatch_preserves (fun s' => Forall never_errored (readables s'))); [|done].
    intros l s' Hs'. rewrite report_message_readables. destruct l as [k]. simpl.
    apply Forall_alter; [done|]. intros rs _ Hrs. unfold try_enqueue.
    destruct (rs_enqueue data rs) eqn:He; [|done]. by eapply never_errored_enqueue.
  - apply (dispatch_preserves (fun s' => Forall never_errored (readables s'))); [|done].
    intros l s' Hs'. rewrite report_close_readables. destruct l as [k|w|]; simpl; try done.
    apply Forall_alter; [done|]. intros rs _ Hrs. unfold try_close.
    destruct (rs_close rs) eqn:He; [|done]. by eapply never_errored_close.
  - apply (dispatch_preserves (fun s' => Forall never_errored (readables s'))); [|done].
    intros [] s' Hs'. js.
  - js.
  - js.
  - js. apply Forall_alter; [done|]. intros rs _. apply never_errored_read.
  - js. apply Forall_insert; [done|]. apply never_errored_cancel.
    eapply Forall_lookup_1; eassumption.
  - js.
  - js.
  - js.
Qed.

(** X16. The adapter never errors the inbound stream: after every run,
    no readable stream it has constructed is errored and no read was
    answered with an error.  Whatever happens to the socket, the consumer
    sees chunks and then done. *)
Theorem inbound_never_errors options ins r rs :
  readables (run ins (init options)) !! r = Some rs ->
  (forall e, r_state rs <> RErrored e)
  /\ Forall (fun res => forall e, res <> ReadError e) (r_results rs).
Proof.
  assert (H : forall s, Forall never_errored (readables s) ->
                        Forall never_errored (readables (run ins s))).
  { induction ins as [|i ins IH]; intros s Hs; [done|].
    rewrite run_cons. apply IH, never_errored_step, Hs. }
  intros Hrs. eapply (Forall_lookup_1 never_errored); [|exact Hrs].
  apply H. constructor.
Qed.

Lemma inbound_never_errors_witness :
  let options := {| protocols := None; signal := None; WebSocket := None |} in
  let ins := [SocketOpen "" ""; Read; SocketError; SocketClose 1006 ""; Read] in
  exists rs,
    readables (run ins (init options)) !! 0 = Some rs
    /\ r_results rs = [ReadDone; ReadDone]
    /\ forall e, r_state rs <> RErrored e.
Proof.
  intros options ins. eexists. split; [reflexivity|]. split; [reflexivity|].
  exact (proj1 (inbound_never_errors options ins 0 _ eq_refl)).
Defined.

(** * The adapter on the MockWebSocket of the test suite *)

Lemma emit_preserves {L} (P : State -> Prop) (call : L -> M unit) (ls : list L) :
  (forall l s, P s -> P (report (call l) s)) ->
  forall s, P s -> P (report (emit call ls) s).
Proof.
  intros Hcall. induction ls as [|l ls IH]; intros s Hs; [done|].
  specialize (Hcall l s Hs). unfold report in *. simpl. unfold bind.
  destruct (call l s) as [[[]|e] s']; [|done].
  by apply IH.
Qed.

Lemma emit_dispatch {L} (call : L -> M unit) (ls : list L) :
  (forall l s, fst (call l s) = Ok tt) ->
  forall s, report (emit call ls) s = dispatch call ls s.
Proof.
  intros Hcall. induction ls as [|l ls IH]; intros s; [done|].
  simpl. rewrite <- IH. specialize (Hcall l s).
  unfold report. simpl. unfold bind.
  by destruct (call l s) as [[[]|e] s'].
Qed.

Lemma call_open_ok l s : fst (call_open l s) = Ok tt.
Proof. by destruct l. Qed.

Lemma call_close_ok code reason l s : fst (call_close code reason l s) = Ok tt.
Proof.
  destruct l as [r|w|]; [|done..].
  unfold call_close, try_catch, controller_close.
  destruct (readables s !! r) as [rs|]; [|done]. by destruct (rs_close rs).
Qed.

Lemma sock_negotiated_same s :
  set_ws (sock_negotiated (ws_protocol (_ws s)) (ws_extensions (_ws s))) s = s.
Proof. by destruct s as [[] ? ? ? ? ? ?]. Qed.

Lemma fire_open_step s :
  fire EmitOpen s
  = step (SocketOpen (ws_protocol (_ws s)) (ws_extensions (_ws s))) s.
Proof.
  unfold fire. rewrite emit_dispatch by apply call_open_ok.
  simpl. by rewrite sock_negotiated_same.
Qed.

Lemma fire_close_step code reason s :
  fire (EmitClose code reason) s = step (SocketClose code reason) s.
Proof. unfold fire. by rewrite emit_dispatch by apply call_close_ok. Qed.

Lemma emit_message_wired data s :
  wired s -> wired (report (emit (call_message data) (on_message (_ws s))) s).
Proof.
  intros Hs. apply (wired_same s); [done| |].
  - apply (emit_preserves (same_wiring s)); [|apply same_wiring_refl].
    intros l s' Hs'. eapply same_wiring_trans; [exact Hs'|apply same_wiring_message].
  - apply (emit_preserves (fun s' => Forall inbound_ok (readables s'))); [|apply Hs].
    intros l s'. apply inbound_message.
Qed.

Lemma emit_message_frame data s :
  let s' := report (emit (call_message data) (on_message (_ws s))) s in
  _ws s' = _ws s /\ closed s' = closed s /\ opened s' = opened s.
Proof.
  apply (emit_preserves
           (fun s' => _ws s' = _ws s /\ closed s' = closed s /\ opened s' = opened s));
    [|done].
  intros [] s' (<- & <- & <-). js.
Qed.

(** ** The mock alone *)

Lemma mock_calls_closed cs : forall m,
  readyState m = 3%Z ->
  let m' := fold_left mock_call cs m in
  readyState m' = 3%Z /\ timers m' = timers m /\ sent m' = sent m ++ sends cs.
Proof.
  induction cs as [|c cs IH]; intros m Hm; cbv zeta.
  { simpl. by rewrite app_nil_r. }
  simpl fold_left. destruct c as [data|code reason]; simpl mock_call.
  - destruct (IH (mock_send data m)) as (-> & -> & ->); [done|].
    simpl. by rewrite <- (assoc_L (++)).
  - unfold mock_close. rewrite Hm. simpl. by apply IH.
Qed.

(** X17. The mock socket of the tests answers only the first close
    request it gets: that request sets one timer for a close event with
    the requested code and reason, 1000 and the empty string where they
    are undefined, and later requests set none.  It records every chunk
    it is asked to send, in order, before and after a close request. *)
Theorem mock_answers_first_close_only cs m :
  let m' := fold_left mock_call cs m in
  sent m' = sent m ++ sends cs
  /\ timers m'
     = timers m
       ++ match close_requests cs with
          | req :: _ =>
              if (readyState m =? 3)%Z then []
              else [EmitClose (default 1000%Z (fst req)) (default "" (snd req))]
          | [] => []
          end.
Proof.
  revert m. induction cs as [|c cs IH]; intros m; cbv zeta.
  { simpl. by rewrite !app_nil_r. }
  simpl fold_left. destruct c as [data|code reason]; simpl mock_call.
  - destruct (IH (mock_send data m)) as [-> ->]. simpl.
    by rewrite <- (assoc_L (++)).
  - change (close_requests (CallClose code reason :: cs))
      with ((code, reason) :: close_requests cs).
    unfold mock_close. destruct (readyState m =? 3)%Z eqn:Hm.
    + apply Z.eqb_eq in Hm.
      destruct (mock_calls_closed cs m Hm) as (_ & -> & ->).
      simpl. by rewrite app_nil_r.
    + edestruct (mock_calls_closed cs
                   {| readyState := 3; sent := sent m;
                      timers := timers m ++ [EmitClose (default 1000%Z code)
                                                       (default "" reason)] |})
        as (_ & -> & ->); done.
Qed.

(** ** The adapter and the mock together *)

Lemma test_run_cons i ins h : test_run (i :: ins) h = test_run ins (test_step i h).
Proof. reflexivity. Qed.

Lemma drive_calls f h l :
  calls (_ws (f (stream h))) = calls (_ws (stream h)) ++ l ->
  drive f h = {| stream := f (stream h); socket := fold_left mock_call l (socket h) |}.
Proof. intros Hl. unfold drive. by rewrite Hl, drop_app_length. Qed.

Lemma drive_quiet f h :
  calls (_ws (f (stream h))) = calls (_ws (stream h)) ->
  drive f h = {| stream := f (stream h); socket := socket h |}.
Proof. intros Hl. apply (drive_calls f h []). by rewrite app_nil_r. Qed.

Lemma close_requests_app cs1 cs2 :
  close_requests (cs1 ++ cs2) = close_requests cs1 ++ close_requests cs2.
Proof. apply omap_app. Qed.

Lemma close_timers_app ts1 ts2 :
  close_timers (ts1 ++ ts2) = close_timers ts1 ++ close_timers ts2.
Proof. apply omap_app. Qed.

Lemma step_fields i s :
  is_open i = false ->
  ws_protocol (_ws (step i s)) = ws_protocol (_ws s)
  /\ ws_extensions (_ws (step i s)) = ws_extensions (_ws s).
Proof.
  destruct i; try discriminate; intros _; simpl;
    try (apply (dispatch_preserves
                  (fun s' => ws_protocol (_ws s') = _ /\ ws_extensions (_ws s') = _));
         [intros [] s' [<- <-]|done]);
    js.
Qed.

Lemma harness_ok_init options : harness_ok (harness_init options).
Proof. split; simpl; first [done|apply wired_init]. Qed.

Lemma harness_ok_user u h : harness_ok h -> harness_ok (test_step (User u) h).
Proof.
  intros [Hw [Hp He] Hsent Hclose]. simpl.
  destruct (step_requests (input_of u) (stream h)) as (l & Hl & _).
  rewrite (drive_calls _ h l Hl).
  destruct (mock_answers_first_close_only l (socket h)) as [Hs Ht].
  assert (Hcl : closed (step (input_of u) (stream h)) = closed (stream h))
    by (apply step_closed_other; by destruct u).
  destruct (step_fields (input_of u) (stream h)) as [Hp' He']; [by destruct u|].
  split; simpl.
  - by apply wired_step.
  - split; congruence.
  - by rewrite Hs, Hl, sends_app, Hsent.
  - rewrite Hl, close_requests_app, Hcl, Ht, close_timers_app.
    destruct (close_requests (calls (_ws (stream h)))) as [|req reqs].
    + destruct Hclose as (Hrs & Hts & Hc). rewrite Hts. simpl.
      apply Z.eqb_neq in Hrs as Hrs'.
      destruct (close_requests l) as [|req' reqs'] eqn:Hreq.
      * simpl. split; [|done].
        clear -Hreq Hrs. revert Hreq. generalize (socket h) Hrs. clear.
        induction l as [|c l IH]; intros m Hm Hreq; [done|].
        destruct c as [data|code reason]; [|done]. simpl. by apply IH.
      * rewrite Hrs'. simpl. split; [|by left].
        clear -Hreq. revert Hreq. generalize (socket h).
        induction l as [|c l IH]; intros m Hreq; [done|].
        destruct c as [data|code reason]; simpl.
        -- by apply IH.
        -- unfold mock_close. destruct (readyState m =? 3)%Z eqn:Hm.
           ++ apply Z.eqb_eq in Hm. by apply mock_calls_closed.
           ++ by apply mock_calls_closed.
    + destruct Hclose as (Hrs & Hc). simpl.
      destruct (mock_calls_closed l (socket h) Hrs) as (Hrs' & _ & _).
      split; [done|].
      apply Z.eqb_eq in Hrs. rewrite Hrs.
      destruct (close_requests l); simpl; by rewrite app_nil_r.
Qed.

Lemma harness_ok_message data h :
  harness_ok h -> harness_ok (test_step (MockMessage data) h).
Proof.
  intros [Hw [Hp He] Hsent Hclose]. simpl.
  destruct (emit_message_frame data (stream h)) as (Hws & Hcl & _).
  rewrite drive_quiet by (by rewrite Hws).
  split; simpl; rewrite ?Hws, ?Hcl; try done.
  by apply emit_message_wired.
Qed.

Lemma harness_ok_timeout h : harness_ok h -> harness_ok (test_step Timeout h).
Proof.
  intros Hh. pose proof Hh as [Hw [Hp He] Hsent Hclose]. simpl.
  destruct (timers (socket h)) as [|t ts] eqn:Hts; [done|].
  assert (Hpop : close_timers (timers (pop_timer (socket h))) = close_timers ts).
  { unfold pop_timer. simpl. by rewrite Hts. }
  destruct t as [|code reason].
  - rewrite drive_quiet; cbn [stream socket]; rewrite fire_open_step.
    2:{ by rewrite socket_event_calls. }
    set (s' := step (SocketOpen (ws_protocol (_ws (stream h)))
                       (ws_extensions (_ws (stream h)))) (stream h)).
    assert (Hcl : closed s' = closed (stream h)) by by apply step_closed_other.
    assert (Hc : calls (_ws s') = calls (_ws (stream h)))
      by by apply socket_event_calls.
    split; cbn [stream socket].
    + by apply wired_step.
    + unfold s'. rewrite step_open_eq by apply Hw. done.
    + by rewrite Hc.
    + rewrite Hc, Hcl, Hpop. done.
  - rewrite drive_quiet; cbn [stream socket]; rewrite fire_close_step.
    2:{ by rewrite socket_event_calls. }
    destruct (step_fields (SocketClose code reason) (stream h)) as [Hp' He']; [done|].
    set (s' := step (SocketClose code reason) (stream h)) in *.
    assert (Hc : calls (_ws s') = calls (_ws (stream h)))
      by by apply socket_event_calls.
    assert (Hcl : closed s' = resolve {| closeCode := code; reason := reason |}
                                (closed (stream h)))
      by by apply step_close_closed.
    split; cbn [stream socket].
    + by apply wired_step.
    + split; congruence.
    + by rewrite Hc.
    + rewrite Hc, Hcl, Hpop.
      change (close_timers (EmitClose code reason :: ts))
        with ((code, reason) :: close_timers ts) in Hclose.
      destruct (close_requests (calls (_ws (stream h)))) as [|req reqs].
      * by destruct Hclose as (_ & ? & _).
      * destruct Hclose as (Hrs & [[Hct Hc']|[Hct _]]); [|done].
        injection Hct as Hcode Hreason Hnil. split; [done|]. right.
        split; [done|]. rewrite Hc'. unfold mock_answer. simpl. by subst.
Qed.

Lemma harness_ok_run ins : forall h,
  Forall (fun i => is_mock_close i = false) ins ->
  harness_ok h -> harness_ok (test_run ins h).
Proof.
  induction ins as [|i ins IH]; intros h Hins Hh; [done|].
  apply Forall_cons in Hins as [Hi Hins]. rewrite test_run_cons. apply IH; [done|].
  destruct i; try discriminate;
    auto using harness_ok_timeout, harness_ok_message, harness_ok_user.
Qed.

Lemma timeout_quiet h :
  harness_ok h ->
  calls (_ws (stream (test_step Timeout h))) = calls (_ws (stream h))
  /\ timers (socket (test_step Timeout h)) = tail (timers (socket h)).
Proof.
  intros [Hw _ _ _]. simpl.
  destruct (timers (socket h)) as [|t ts] eqn:Hts; [by rewrite Hts|].
  assert (Hq : calls (_ws (fire t (stream h))) = calls (_ws (stream h))).
  { destruct t; [rewrite fire_open_step|rewrite fire_close_step];
      by rewrite socket_event_calls. }
  rewrite drive_quiet by done. simpl. by rewrite Hts.
Qed.

Lemma drain_timers n : forall h,
  harness_ok h -> length (timers (socket h)) = n ->
  let h' := test_run (repeat Timeout n) h in
  harness_ok h'
  /\ timers (socket h') = []
  /\ calls (_ws (stream h')) = calls (_ws (stream h)).
Proof.
  induction n as [|n IH]; intros h Hh Hn; cbv zeta.
  { simpl. by apply length_zero_iff_nil in Hn. }
  cbn [repeat]. rewrite test_run_cons.
  destruct (timeout_quiet h Hh) as [Hcalls Hts].
  destruct (IH (test_step Timeout h)) as (Hok & Hnil & Hc).
  - by apply harness_ok_timeout.
  - rewrite Hts. destruct (timers (socket h)); simpl in *; lia.
  - split; [done|]. split; [done|]. congruence.
Qed.

(** X18. On the mock socket of the tests, [closed] reports the first
    close request the adapter made.  Take any run of user calls, timers
    and mocked messages, and let the timers that are left run: if the
    adapter has asked the socket to close, through close(), the abort
    signal, a cancel, or the close or abort of the writer, then [closed]
    is fulfilled with the code and the reason of the first such request,
    1000 and the empty string where they were undefined; if it has not,
    [closed] is pending.  The mock has recorded the chunks of the [send]
    calls in order. *)
Theorem closed_reports_first_close_request options ins :
  Forall (fun i => is_mock_close i = false) ins ->
  let h := test_run ins (harness_init options) in
  let h' := test_run (repeat Timeout (length (timers (socket h)))) h in
  timers (socket h') = []
  /\ calls (_ws (stream h')) = calls (_ws (stream h))
  /\ sent (socket h') = sends (calls (_ws (stream h)))
  /\ closed (stream h')
     = match close_requests (calls (_ws (stream h))) with
       | (code, reason) :: _ =>
           Fulfilled {| closeCode := default 1000%Z code; reason := default "" reason |}
       | [] => Pending
       end.
Proof.
  intros Hins h h'.
  assert (Hh : harness_ok h) by (apply harness_ok_run; [done|apply harness_ok_init]).
  destruct (drain_timers _ h Hh eq_refl) as (Hok & Hnil & Hcalls).
  fold h' in Hok, Hnil, Hcalls.
  destruct Hok as [_ _ Hsent Hclose]. rewrite Hcalls in Hsent, Hclose.
  repeat split; try done.
  rewrite Hnil in Hclose. simpl in Hclose.
  destruct (close_requests (calls (_ws (stream h)))) as [|[code reason] reqs].
  - by destruct Hclose as (_ & _ & ?).
  - by destruct Hclose as (_ & [[? _]|[_ ?]]).
Qed.

Lemma closed_reports_first_close_request_witness :
  let options := {| protocols := None; signal := None; WebSocket := None |} in
  let ins := [Timeout; User (UClose {| opt_closeCode := None; opt_reason := Some "bye" |});
              User UCancel; User (UWrite (SendString "late"))] in
  let h := test_run ins (harness_init options) in
  Forall (fun i => is_mock_close i = false) ins
  /\ closed (stream (test_run (repeat Timeout (length (timers (socket h)))) h))
     = Fulfilled {| closeCode := 1000; reason := "bye" |}.
Proof.
  intros options ins h.
  assert (Hins : Forall (fun i => is_mock_close i = false) ins) by (repeat constructor).
  split; [exact Hins|].
  refine (eq_trans
            (proj2 (proj2 (proj2 (closed_reports_first_close_request options ins Hins))))
            _).
  vm_compute. reflexivity.
Defined.
